(** * A shallow embedding of the onepiece_tube_mangas backend

    The Python backend (src/backend) is modelled module by module:
    - [Py]: the Python runtime pieces the backend relies on (exceptions,
      a state-and-exception monad for code that mutates objects and may
      raise, [list.sort]/[sorted] with a key, [int(str)]);
    - [Scheduler]: [UpdateScheduler.__init__] and [_get_highest_downloaded];
    - [Downloader]: [ChapterDownloader._download_image], [_create_epub],
      [download_chapter] over a model of the file system;
    - [Resolver]: [utils.fetch_chapter_data] with the [requests] session,
      the [window.__data] regular expression and [json.loads];
    - [WebPush]: the subscription store of [WebPushService] and its
      [send_notification];
    - [Notifier]: [ChapterNotifier] (refresh, check_for_update, the e-mail
      channel and the combined e-mail and push channels);
    - [Mangaliste]: [utils.fetch_mangaliste_entries];
    - [Job]: [UpdateScheduler._job];
    - [App]: the FastAPI endpoints of [app.py] that download, delete and
      export chapters, report the latest chapter, notify, and manage push
      subscriptions. *)

From Stdlib Require Import ZArith Ascii.
From stdpp Require Import base list gmap strings sorting pretty.

Open Scope Z_scope.

(* ------------------------------------------------------------------ *)
(** ** Python runtime *)
(* ------------------------------------------------------------------ *)

Module Py.

(** Exceptions raised by the modelled code, with Python's class of each. *)
Inductive exc :=
  | ValueError            (* raise ValueError(...) *)
  | RuntimeError          (* raise RuntimeError(...) *)
  | KeyError              (* missing dict key *)
  | JSONDecodeError       (* json.loads on malformed text *)
  | HTTPError             (* requests' raise_for_status *)
  | ConnectionError       (* requests: the request itself failed *)
  | InvalidSchema         (* requests: no adapter for the URL's scheme *)
  | OSError               (* file system failure (open/write/read) *)
  | SMTPError.            (* smtplib failure *)

(** [isinstance(e, ValueError)]: [json.JSONDecodeError] subclasses
    [ValueError]. *)
Definition is_value_error (e : exc) : bool :=
  match e with ValueError | JSONDecodeError => true | _ => false end.

Definition is_runtime_error (e : exc) : bool :=
  match e with RuntimeError => true | _ => false end.

(** Code that reads and mutates an object of type [S] and may raise. *)
Definition M (S A : Type) : Type := S -> S * (exc + A).

Definition ret {S A} (a : A) : M S A := fun s => (s, inr a).
Definition raise {S A} (e : exc) : M S A := fun s => (s, inl e).
Definition bind {S A B} (m : M S A) (k : A -> M S B) : M S B :=
  fun s => match m s with
           | (s', inl e) => (s', inl e)
           | (s', inr a) => k a s'
           end.
Definition get {S} : M S S := fun s => (s, inr s).
Definition modify {S} (f : S -> S) : M S unit := fun s => (f s, inr tt).

(** [try: m except Exception: h]: the state reached when [m] raised is
    kept, as Python does not roll back mutations. *)
Definition try_except {S A} (m : M S A) (h : exc -> M S A) : M S A :=
  fun s => match m s with
           | (s', inl e) => h e s'
           | r => r
           end.

Notation "'let*' x ':=' m 'in' k" := (bind m (fun x => k))
  (at level 200, x name, m at level 100, k at level 200).

Lemma bind_ret {S A B} (a : A) (k : A -> M S B) s : bind (ret a) k s = k a s.
Proof. reflexivity. Qed.

Lemma bind_inr {S A B} (m : M S A) (k : A -> M S B) s s1 a :
  m s = (s1, inr a) -> bind m k s = k a s1.
Proof. unfold bind. by intros ->. Qed.

Lemma bind_inl {S A B} (m : M S A) (k : A -> M S B) s s1 e :
  m s = (s1, inl e) -> bind m k s = (s1, inl e).
Proof. unfold bind. by intros ->. Qed.

Lemma bind_inr_inv {S A B} (m : M S A) (k : A -> M S B) s s' b :
  bind m k s = (s', inr b) -> exists s1 a, m s = (s1, inr a) /\ k a s1 = (s', inr b).
Proof. unfold bind. destruct (m s) as [s1 [e|a]]; [discriminate|eauto]. Qed.

(** Python's stable sort with a key and [<] on the keys
    ([list.sort(key=...)], [sorted(..., key=...)]): an element is placed
    after every element whose key it is not smaller than. *)
Section Sort.
Context {A K : Type} (lt : K -> K -> bool) (key : A -> K).

Fixpoint py_insert (x : A) (l : list A) : list A :=
  match l with
  | [] => [x]
  | y :: l' => if lt (key x) (key y) then x :: y :: l' else y :: py_insert x l'
  end.

Definition py_sort (l : list A) : list A :=
  fold_left (fun acc x => py_insert x acc) l [].

Lemma py_insert_perm x l : py_insert x l ≡ₚ x :: l.
Proof.
  induction l as [|y l IH]; simpl; [done|].
  destruct (lt (key x) (key y)); [done|].
  rewrite IH. by constructor.
Qed.

Lemma py_sort_fold_perm l acc :
  fold_left (fun acc x => py_insert x acc) l acc ≡ₚ l ++ acc.
Proof.
  revert acc. induction l as [|x l IH]; intros acc; simpl; [done|].
  rewrite IH, py_insert_perm. by rewrite Permutation_middle.
Qed.

Lemma py_sort_perm l : py_sort l ≡ₚ l.
Proof. unfold py_sort. by rewrite py_sort_fold_perm, app_nil_r. Qed.

(** Sortedness, for a [<=] on keys that [lt] decides totally. *)
Context (le : K -> K -> Prop) `{!Transitive le}.
Hypothesis lt_le : forall a b, lt a b = true -> le a b.
Hypothesis not_lt_ge : forall a b, lt a b = false -> le b a.

Let R (x y : A) : Prop := le (key x) (key y).

Lemma py_insert_hd z x l :
  R z x -> HdRel R z l -> HdRel R z (py_insert x l).
Proof.
  intros Hzx Hz. destruct l as [|y l]; simpl; [by constructor|].
  destruct (lt (key x) (key y)); constructor; [done|]. by inversion Hz.
Qed.

Lemma py_insert_sorted x l : Sorted R l -> Sorted R (py_insert x l).
Proof.
  induction l as [|y l IH]; intros Hs; simpl; [by repeat constructor|].
  destruct (lt (key x) (key y)) eqn:E.
  - constructor; [done|]. constructor. by apply lt_le.
  - inversion Hs as [|? ? Hl Hy]; subst. constructor; [by apply IH|].
    apply py_insert_hd; [by apply not_lt_ge|done].
Qed.

Lemma py_sort_sorted l : StronglySorted R (py_sort l).
Proof.
  apply Sorted_StronglySorted.
  { intros x y z. unfold R. apply transitivity. }
  unfold py_sort. cut (forall acc, Sorted R acc ->
    Sorted R (fold_left (fun acc x => py_insert x acc) l acc)).
  { intros H. apply H. constructor. }
  induction l as [|x l IH]; intros acc Hacc; simpl; [done|].
  apply IH, py_insert_sorted, Hacc.
Qed.
End Sort.

(** [str.__lt__] on the modelled (ASCII) strings: lexicographic order of
    the character codes, which is [String.ltb]. *)
Definition str_lt (a b : string) : bool := String.ltb a b.

Lemma str_lt_le a b : str_lt a b = true -> String.le a b.
Proof.
  unfold str_lt, String.ltb, String.le, String.leb.
  by destruct (String.compare a b).
Qed.

Lemma str_not_lt_ge a b : str_lt a b = false -> String.le b a.
Proof.
  unfold str_lt, String.ltb, String.le, String.leb.
  rewrite (String.compare_antisym b a).
  by destruct (String.compare a b).
Qed.

(** [str.isspace] on ASCII characters. *)
Definition isspace (c : ascii) : bool :=
  let n := nat_of_ascii c in
  ((9 <=? n)%nat && (n <=? 13)%nat) || ((28 <=? n)%nat && (n <=? 32)%nat).

Definition digit_value (c : ascii) : option Z :=
  let n := nat_of_ascii c in
  if ((48 <=? n)%nat && (n <=? 57)%nat) then Some (Z.of_nat n - 48) else None.

Fixpoint drop_space (l : list ascii) : list ascii :=
  match l with
  | c :: l' => if isspace c then drop_space l' else l
  | [] => []
  end.

Definition strip (l : list ascii) : list ascii :=
  rev (drop_space (rev (drop_space l))).

(** Decimal digits where single underscores may separate two digits. *)
Fixpoint py_digits (acc : Z) (after_digit : bool) (l : list ascii) : option Z :=
  match l with
  | [] => if after_digit then Some acc else None
  | c :: l' =>
      match digit_value c with
      | Some d => py_digits (acc * 10 + d) true l'
      | None =>
          if (c =? "_")%char && after_digit then py_digits acc false l' else None
      end
  end.

(** [int(s)] on ASCII text: surrounding white space, an optional sign,
    decimal digits; [None] where Python raises [ValueError]. *)
Definition py_int (s : string) : option Z :=
  match strip (String.list_ascii_of_string s) with
  | "-"%char :: r => option_map Z.opp (py_digits 0 false r)
  | "+"%char :: r => py_digits 0 false r
  | l => py_digits 0 false l
  end.

End Py.

Import Py.

(* ------------------------------------------------------------------ *)
(** ** Update scheduler start-up *)
(* ------------------------------------------------------------------ *)

Module Scheduler.

(** A chapter entry of the cached mangaliste snapshot (a JSON object):
    only the keys the modelled code reads; [None] is an absent key. *)
Record entry := mk_entry { e_number : option Z; e_name : option string }.

(** An entry of [storage_dir.iterdir()]. *)
Record dir_entry := mk_dir_entry { de_name : string; de_is_dir : bool }.

(** [numbers] of [UpdateScheduler._get_highest_downloaded]: the names of
    the subdirectories that [int] accepts. *)
Definition local_numbers (listing : list dir_entry) : list Z :=
  omap (fun d => if de_is_dir d then py_int (de_name d) else None) listing.

(** [UpdateScheduler._get_highest_downloaded]. *)
Definition _get_highest_downloaded (listing : list dir_entry) : option Z :=
  match local_numbers listing with
  | [] => None
  | n :: ns => Some (fold_left Z.max ns n)
  end.

(** [ChapterNotifier.get_latest_number]:
    [max(entry.get("number", 0) for entry in self.entries)]. *)
Definition get_latest_number (entries : list entry) : option Z :=
  match entries with
  | [] => None
  | e :: es => Some (fold_left (fun m e' => Z.max m (default 0 (e_number e')))
                               es (default 0 (e_number e)))
  end.

(** Python's [a or b] for an [Optional[int]] [a]: [None] and [0] are falsy. *)
Definition py_or (a : option Z) (b : Z) : Z :=
  match a with
  | Some z => if z =? 0 then b else z
  | None => b
  end.

(** [self.current_latest = downloaded or (notifier.get_latest_number() or 0)]. *)
Definition initial_current_latest (listing : list dir_entry) (entries : list entry) : Z :=
  let downloaded := _get_highest_downloaded listing in
  py_or downloaded (py_or (get_latest_number entries) 0).

End Scheduler.

(* ------------------------------------------------------------------ *)
(** ** Chapter download and EPUB creation *)
(* ------------------------------------------------------------------ *)

Module Downloader.

Definition bytes := list Byte.byte.

(** A [pathlib.Path] built as [parent / name]; [name] is [Path.name]. *)
Record path := mk_path { p_dir : string; p_name : string }.

Definition key (p : path) : string * string := (p_dir p, p_name p).
Definition full (p : path) : string := p_dir p +:+ "/" +:+ p_name p.

(** One HTML page of the EPUB ([page_{idx:03d}.xhtml]): its index and the
    [src] of the image it shows ([images/{img_path.name}]). *)
Record page_item := mk_page_item { pi_index : nat; pi_image : string }.

Inductive spine_item := SpineNav | SpinePage (pg : page_item).

(** The [epub.EpubBook] assembled by [_create_epub]. *)
Record book := mk_book {
  bk_chapter : Z;                         (* set_title(f"... {chapter}: {title}") *)
  bk_title : string;
  bk_language : string;                   (* set_language("de") *)
  bk_author : string;                     (* add_author(...) *)
  bk_images : list (string * bytes);      (* EpubImage items: file_name, content *)
  bk_pages : list page_item;              (* EpubHtml items, in insertion order *)
  bk_toc : list nat;                      (* Link(page_file_name, f"Seite {idx}", ...) *)
  bk_spine : list spine_item              (* ["nav"] + html_pages *)
}.

(** File contents: raw bytes, a complete EPUB written by
    [epub.write_epub], or one whose writing stopped with an error. *)
Inductive file := Blob (b : bytes) | EpubFile (b : book) | EpubTruncated (b : book).

(** The file system (regular files by [(parent, name)], directories by
    their full path) and the log of image requests sent by the session. *)
Record world := mk_world {
  w_files : gmap (string * string) file;
  w_dirs : gset string;
  w_requests : list string
}.

Record response := mk_response { status_code : Z; content : bytes }.

(** A page descriptor of [data["chapter"]["pages"]]: [page.get("url")]. *)
Record page := mk_page { pg_url : option string }.

(** The parts of [fetch_chapter_data(...)] read by [download_chapter]:
    [data["chapter"]["name"]] and [data["chapter"]["pages"]]. *)
Record chapter_data := mk_chapter_data { ch_name : string; ch_pages : list page }.

(** The environment of a [ChapterDownloader]: its [storage_dir], the remote
    side ([self.session.get] on image URLs, [None] when the request raises;
    the chapter metadata step) and the storage failures ([Some k]: writing
    to that path fails with [OSError] after [k] bytes). The environment is
    fixed: the remote side and the disk behave the same at every call. *)
Record env := mk_env {
  storage_dir : string;
  net_get : string -> option response;
  fetch_meta : Z -> exc + chapter_data;
  write_fails_at : path -> option nat
}.

Definition set_file (p : path) (f : file) (w : world) : world :=
  mk_world (<[key p := f]> (w_files w)) (w_dirs w) (w_requests w).

(** [Path.exists()]: a file or a directory. *)
Definition exists_path (p : path) (w : world) : bool :=
  bool_decide (is_Some (w_files w !! key p)) || bool_decide (full p ∈ w_dirs w).

(** [Path.mkdir(parents=True, exist_ok=True)]. *)
Definition mkdir_p (d : string) : M world unit :=
  modify (fun w => mk_world (w_files w) ({[d]} ∪ w_dirs w) (w_requests w)).

(** [self.session.get(url, timeout=...)]. *)
Definition session_get (E : env) (url : string) : M world response :=
  fun w =>
    let w' := mk_world (w_files w) (w_dirs w) (w_requests w ++ [url]) in
    match net_get E url with
    | Some r => (w', inr r)
    | None => (w', inl ConnectionError)
    end.

(** [resp.raise_for_status()]: 4xx and 5xx raise. *)
Definition raise_for_status {S} (r : response) : M S unit :=
  if bool_decide (400 <= status_code r < 600) then raise HTTPError else ret tt.

(** [with open(dest_path, "wb") as f: f.write(data)]: opening truncates the
    file at its final path, the bytes go there directly. *)
Definition write_bytes (E : env) (p : path) (data : bytes) : M world unit :=
  fun w =>
    match write_fails_at E p with
    | Some k => (set_file p (Blob (take k data)) w, inl OSError)
    | None => (set_file p (Blob data) w, inr tt)
    end.

(** [ChapterDownloader._download_image]. *)
Definition _download_image (E : env) (url : string) (dest_path : path) : M world unit :=
  let* w := get in
  if exists_path dest_path w then ret tt
  else
    let* resp := session_get E url in
    let* _ := raise_for_status resp in
    let* _ := mkdir_p (p_dir dest_path) in
    write_bytes E dest_path (content resp).

(** [url.split("/")[-1]]. *)
Fixpoint last_segment_acc (acc s : string) : string :=
  match s with
  | EmptyString => acc
  | String c s' =>
      if (c =? "/")%char then last_segment_acc "" s'
      else last_segment_acc (acc +:+ String c EmptyString) s'
  end.

Definition last_segment (url : string) : string := last_segment_acc "" url.

Definition chapter_dir (E : env) (chapter : Z) : string :=
  storage_dir E +:+ "/" +:+ pretty chapter.

Definition images_dir (E : env) (chapter : Z) : string :=
  chapter_dir E chapter +:+ "/images".

(** The page loop of [download_chapter]: pages whose URL is missing or
    empty are skipped, the others are saved under their URL's basename. *)
Fixpoint download_pages (E : env) (dir : string) (pages : list page) : M world (list path) :=
  match pages with
  | [] => ret []
  | pg :: rest =>
      match pg_url pg with
      | None | Some EmptyString => download_pages E dir rest
      | Some url =>
          let dest_path := mk_path dir (last_segment url) in
          let* _ := _download_image E url dest_path in
          let* ps := download_pages E dir rest in
          ret (dest_path :: ps)
      end
  end.

(** [open(img_path, "rb").read()] for each image, in order. *)
Fixpoint read_images (files : gmap (string * string) file) (ps : list path)
  : exc + list bytes :=
  match ps with
  | [] => inr []
  | p :: ps' =>
      match files !! key p with
      | Some (Blob b) =>
          match read_images files ps' with
          | inr bs => inr (b :: bs)
          | inl e => inl e
          end
      | _ => inl OSError
      end
  end.

Definition image_href (name : string) : string := "images/" +:+ name.

Definition make_book (chapter : Z) (title : string) (image_files : list path)
    (contents : list bytes) : book :=
  let pages := imap (fun i p => mk_page_item (S i) (image_href (p_name p))) image_files in
  mk_book chapter title "de" "Eiichiro Oda"
    (zip ((fun p => image_href (p_name p)) <$> image_files) contents)
    pages
    (pi_index <$> pages)
    (SpineNav :: (SpinePage <$> pages)).

(** [epub.write_epub(str(output_path), book)]. *)
Definition write_epub (E : env) (p : path) (b : book) : M world unit :=
  fun w =>
    match write_fails_at E p with
    | Some _ => (set_file p (EpubTruncated b) w, inl OSError)
    | None => (set_file p (EpubFile b) w, inr tt)
    end.

(** [ChapterDownloader._create_epub]. *)
Definition _create_epub (E : env) (chapter : Z) (title : string)
    (image_files : list path) (output_path : path) : M world unit :=
  let* w := get in
  match read_images (w_files w) image_files with
  | inl e => raise e
  | inr contents =>
      let* _ := mkdir_p (p_dir output_path) in
      write_epub E output_path (make_book chapter title image_files contents)
  end.

Definition lift_result {S A} (r : exc + A) : M S A :=
  match r with inl e => raise e | inr a => ret a end.

Definition epub_path (E : env) (chapter : Z) : path :=
  mk_path (chapter_dir E chapter) ("onepiece_" +:+ pretty chapter +:+ ".epub").

(** [ChapterDownloader.download_chapter]. *)
Definition download_chapter (E : env) (chapter : Z) : M world path :=
  let* data := lift_result (fetch_meta E chapter) in
  let title := ch_name data in
  let pages := ch_pages data in
  let* _ := mkdir_p (chapter_dir E chapter) in
  let* _ := mkdir_p (images_dir E chapter) in
  let* image_paths := download_pages E (images_dir E chapter) pages in
  let image_paths := py_sort str_lt p_name image_paths in
  let* _ := _create_epub E chapter title image_paths (epub_path E chapter) in
  ret (epub_path E chapter).

(** The local file names the page loop saves, in the resolver's order, and
    the paths it appends to [image_paths]. *)
Definition local_names (pages : list page) : list string :=
  omap (fun pg => match pg_url pg with
                  | None | Some EmptyString => None
                  | Some url => Some (last_segment url)
                  end) pages.

Definition page_paths (dir : string) (pages : list page) : list path :=
  mk_path dir <$> local_names pages.

(** The file names of [image_paths] after [image_paths.sort(key=lambda p: p.name)]:
    the order of the pages in the EPUB. *)
Definition package_order (E : env) (chapter : Z) (pages : list page) : list string :=
  p_name <$> py_sort str_lt p_name (page_paths (images_dir E chapter) pages).

End Downloader.

(* ------------------------------------------------------------------ *)
(** ** Chapter metadata resolution *)
(* ------------------------------------------------------------------ *)

Module Resolver.

Local Open Scope char_scope.

Fixpoint strip_prefix (pre l : list ascii) : option (list ascii) :=
  match pre, l with
  | [], _ => Some l
  | c :: pre', d :: l' => if (c =? d)%char then strip_prefix pre' l' else None
  | _ :: _, [] => None
  end.

(** [needle in hay] for strings. *)
Fixpoint contains_from (needle l : list ascii) : bool :=
  match strip_prefix needle l with
  | Some _ => true
  | None => match l with [] => false | _ :: l' => contains_from needle l' end
  end.

Definition contains (needle hay : string) : bool :=
  contains_from (String.list_ascii_of_string needle) (String.list_ascii_of_string hay).

Definition lower (c : ascii) : ascii :=
  let n := nat_of_ascii c in
  if ((65 <=? n)%nat && (n <=? 90)%nat) then ascii_of_nat (n + 32) else c.

(** [str.rstrip("/")]. *)
Definition rstrip_slash (s : string) : string :=
  let fix go (l : list ascii) : list ascii :=
    match l with "/" :: l' => go l' | _ => l end in
  String.string_of_list_ascii (rev (go (rev (String.list_ascii_of_string s)))).

(** ** JSON ([json.loads]) *)

(** A decoded JSON value; numbers keep their lexeme, strings their
    escaped text (only well-formedness matters here). *)
#[warnings="-register-all"]
Inductive json :=
  | JNull | JBool (b : bool) | JNum (lexeme : list ascii) | JStr (raw : list ascii)
  | JArr (xs : list json) | JObj (kvs : list (list ascii * json)).

Definition json_space (c : ascii) : bool :=
  (c =? " ") || (c =? "009") || (c =? "010") || (c =? "013").

Fixpoint skip_json_space (l : list ascii) : list ascii :=
  match l with c :: l' => if json_space c then skip_json_space l' else l | [] => [] end.

Definition is_digit (c : ascii) : bool := if digit_value c then true else false.

Definition is_hex (c : ascii) : bool :=
  is_digit c || (let n := nat_of_ascii (lower c) in (97 <=? n)%nat && (n <=? 102)%nat).

(** The body of a string after its opening quote ([strict=True]: no raw
    control characters). *)
Fixpoint json_string_body (acc : list ascii) (l : list ascii) : option (list ascii * list ascii) :=
  match l with
  | [] => None
  | "034" :: l' => Some (acc, l')
  | "\" :: c :: l' =>
      if (c =? "u") then
        match l' with
        | h1 :: h2 :: h3 :: h4 :: l'' =>
            if is_hex h1 && is_hex h2 && is_hex h3 && is_hex h4
            then json_string_body (acc ++ ["\"; c; h1; h2; h3; h4]) l'' else None
        | _ => None
        end
      else if existsb (fun e => e =? c) ["034"; "\"; "/"; "b"; "f"; "n"; "r"; "t"]
      then json_string_body (acc ++ ["\"; c]) l'
      else None
  | c :: l' => if (nat_of_ascii c <? 32)%nat then None else json_string_body (acc ++ [c]) l'
  end.

Fixpoint take_digits (l : list ascii) : list ascii * list ascii :=
  match l with
  | c :: l' => if is_digit c then let '(ds, r) := take_digits l' in (c :: ds, r) else ([], l)
  | [] => ([], [])
  end.

(** [NUMBER_RE = r'(-?(?:0|[1-9]\d* ))(\.\d+)?([eE][-+]?\d+)?']. *)
Definition json_number (l : list ascii) : option (list ascii * list ascii) :=
  let '(sign, l1) := match l with "-" :: r => (["-"], r) | _ => ([], l) end in
  let int_part :=
    match l1 with
    | "0" :: r => Some (["0"], r)
    | c :: _ => if is_digit c then Some (take_digits l1) else None
    | [] => None
    end in
  match int_part with
  | None => None
  | Some (ip, l2) =>
      let '(frac, l3) :=
        match l2 with
        | "." :: r => match take_digits r with
                      | (d :: ds, r') => ("." :: d :: ds, r')
                      | _ => ([], l2)
                      end
        | _ => ([], l2)
        end in
      let '(ex, l4) :=
        match l3 with
        | e :: r =>
            if (e =? "e") || (e =? "E") then
              let '(sg, r1) := match r with
                               | "+" :: r1 => (["+"], r1) | "-" :: r1 => (["-"], r1)
                               | _ => ([], r) end in
              match take_digits r1 with
              | (d :: ds, r') => (e :: sg ++ d :: ds, r')
              | _ => ([], l3)
              end
            else ([], l3)
        | [] => ([], l3)
        end in
      Some (sign ++ ip ++ frac ++ ex, l4)
  end.

Definition lit (s : string) : list ascii := String.list_ascii_of_string s.

(** [scan_once], [JSONObject] and [JSONArray] of Python's decoder. The fuel
    bounds the nesting; [json_loads] gives one more than the length of the
    text, more than any value can use. *)
Fixpoint json_value (n : nat) (l : list ascii) : option (json * list ascii) :=
  match n with
  | O => None
  | S n' =>
      match l with
      | "034" :: r => option_map (fun '(s, r') => (JStr s, r')) (json_string_body [] r)
      | "{" :: r =>
          match skip_json_space r with
          | "}" :: r' => Some (JObj [], r')
          | r' => json_members n' [] r'
          end
      | "[" :: r =>
          match skip_json_space r with
          | "]" :: r' => Some (JArr [], r')
          | r' => json_elements n' [] r'
          end
      | _ =>
          match strip_prefix (lit "null") l with Some r => Some (JNull, r) | None =>
          match strip_prefix (lit "true") l with Some r => Some (JBool true, r) | None =>
          match strip_prefix (lit "false") l with Some r => Some (JBool false, r) | None =>
          match json_number l with Some (num, r) => Some (JNum num, r) | None =>
          match strip_prefix (lit "NaN") l with Some r => Some (JNum (lit "NaN"), r) | None =>
          match strip_prefix (lit "Infinity") l with
          | Some r => Some (JNum (lit "Infinity"), r)
          | None =>
          match strip_prefix (lit "-Infinity") l with
          | Some r => Some (JNum (lit "-Infinity"), r)
          | None => None
          end end end end end end end
      end
  end
with json_members (n : nat) (acc : list (list ascii * json)) (l : list ascii)
    : option (json * list ascii) :=
  match n with
  | O => None
  | S n' =>
      match l with
      | "034" :: r =>
          match json_string_body [] r with
          | Some (k, r1) =>
              match skip_json_space r1 with
              | ":" :: r2 =>
                  match json_value n' (skip_json_space r2) with
                  | Some (v, r3) =>
                      match skip_json_space r3 with
                      | "," :: r4 => json_members n' (acc ++ [(k, v)]) (skip_json_space r4)
                      | "}" :: r4 => Some (JObj (acc ++ [(k, v)]), r4)
                      | _ => None
                      end
                  | None => None
                  end
              | _ => None
              end
          | None => None
          end
      | _ => None
      end
  end
with json_elements (n : nat) (acc : list json) (l : list ascii)
    : option (json * list ascii) :=
  match n with
  | O => None
  | S n' =>
      match json_value n' l with
      | Some (v, r) =>
          match skip_json_space r with
          | "," :: r' => json_elements n' (acc ++ [v]) (skip_json_space r')
          | "]" :: r' => Some (JArr (acc ++ [v]), r')
          | _ => None
          end
      | None => None
      end
  end.

(** [json.loads(s)]: one value, surrounded by white space only; [None]
    where Python raises [json.JSONDecodeError]. *)
Definition json_loads (s : list ascii) : option json :=
  match json_value (S (length s)) (skip_json_space s) with
  | Some (v, r) => match skip_json_space r with [] => Some v | _ => None end
  | None => None
  end.

(** ** The [window.__data] pattern *)

(** [\s*]: greedy, and never given back since the next token ([=], [{],
    [;]) is not white space. *)
Fixpoint skip_re_space (l : list ascii) : list ascii :=
  match l with c :: l' => if isspace c then skip_re_space l' else l | [] => [] end.

(** [.*?\}\s*;] after the opening brace: the shortest run ending in a
    [}] that is followed by white space and [;]. *)
Fixpoint lazy_group (acc l : list ascii) : option (list ascii) :=
  match l with
  | [] => None
  | c :: l' =>
      if (c =? "}") && (match skip_re_space l' with ";" :: _ => true | _ => false end)
      then Some (acc ++ [c])
      else lazy_group (acc ++ [c]) l'
  end.

Definition match_at (l : list ascii) : option (list ascii) :=
  match strip_prefix (lit "window.__data") l with
  | Some r =>
      match skip_re_space r with
      | "=" :: r' =>
          match skip_re_space r' with
          | "{" :: r'' => lazy_group ["{"] r''
          | _ => None
          end
      | _ => None
      end
  | None => None
  end.

(** [re.search(r'window\.__data\s*=\s*(\{.*?\})\s*;', text, re.DOTALL)]:
    group 1 of the leftmost match. *)
Fixpoint search_window_data (l : list ascii) : option (list ascii) :=
  match match_at l with
  | Some g => Some g
  | None => match l with [] => None | _ :: l' => search_window_data l' end
  end.

(** ** The [requests] session *)

Record http_response := mk_http { r_status : Z; r_text : string }.

(** A session with requests' default adapters, mounted for [https://] and
    [http://]: a URL with no matching prefix raises [InvalidSchema] before
    anything is sent. The state is the log of requests sent. *)
Definition has_adapter (url : string) : bool :=
  let u := lower <$> String.list_ascii_of_string url in
  if strip_prefix (lit "https://") u then true
  else if strip_prefix (lit "http://") u then true else false.

Definition session_get (net : string -> option http_response) (url : string)
    : M (list string) http_response :=
  fun log =>
    if has_adapter url then
      (log ++ [url], match net url with Some r => inr r | None => inl ConnectionError end)
    else (log, inl InvalidSchema).

Definition raise_for_status {S} (r : http_response) : M S unit :=
  if bool_decide (400 <= r_status r < 600)%Z then raise HTTPError else ret tt.

Definition unavailable_marker : string := "Dieses Kapitel ist aktuell nicht verf".

Definition chapter_url (base_url : string) (chapter : Z) : string :=
  rstrip_slash base_url +:+ "/manga/kapitel/" +:+ pretty chapter +:+ "/1".

(** [utils.fetch_chapter_data]. *)
Definition fetch_chapter_data (net : string -> option http_response) (base_url : string)
    (chapter : Z) : M (list string) json :=
  let url := chapter_url base_url chapter in
  let view_source_url := "view-source:" +:+ url in
  let* resp := session_get net url in
  if (r_status resp =? 404)%Z then raise ValueError else
  let html := r_text resp in
  if contains unavailable_marker html then raise ValueError else
  let* vs_html := try_except
    (let* vs_resp := session_get net view_source_url in
     let* _ := raise_for_status vs_resp in
     ret (r_text vs_resp))
    (fun _ => ret html) in
  match search_window_data (String.list_ascii_of_string vs_html) with
  | None => raise RuntimeError
  | Some group => match json_loads group with
                  | None => raise JSONDecodeError
                  | Some data_obj => ret data_obj
                  end
  end.

End Resolver.

(* ------------------------------------------------------------------ *)
(** ** [web_push.WebPushService] *)
(* ------------------------------------------------------------------ *)

Module WebPush.
Import Py.

(** A subscription dict as posted by the browser ([PushSubscription]):
    its [endpoint] and the key names of its [keys] dict; [None] is an
    absent key. *)
Record subscription := mk_sub {
  s_endpoint : option string;
  s_keys : option (list string) }.

(** The outcome of one [pywebpush.webpush(...)] call. *)
Inductive push_outcome :=
  | Delivered
  | PushRejected (status : option Z)  (* WebPushException; e.response's status, if any *)
  | PushCrashed.                      (* any other exception *)

(** The service object: [self.subscriptions], and the [webpush] calls
    made so far (subscription, notification title). *)
Record service := mk_service {
  subscriptions : list subscription;
  outbox : list (subscription * string) }.

Definition set_subscriptions (subs : list subscription) (svc : service) : service :=
  mk_service subs (outbox svc).

Definition post (sub : subscription) (title : string) (svc : service) : service :=
  mk_service (subscriptions svc) (outbox svc ++ [(sub, title)]).

(** [for existing in self.subscriptions:
       if existing['endpoint'] == subscription['endpoint']: return True]. *)
Fixpoint find_existing (ep : string) (subs : list subscription) : exc + bool :=
  match subs with
  | [] => inr false
  | ex :: rest =>
      match s_endpoint ex with
      | None => inl KeyError
      | Some ep' => if String.eqb ep' ep then inr true else find_existing ep rest
      end
  end.

(** [WebPushService.subscribe]: the whole body sits in
    [try ... except Exception: return False]. *)
Definition subscribe (sub : subscription) : M service bool :=
  try_except
    (match s_endpoint sub, s_keys sub with
     | Some ep, Some ks =>
         if bool_decide ("p256dh" ∈ ks) && bool_decide ("auth" ∈ ks) then
           let* svc := get in
           match find_existing ep (subscriptions svc) with
           | inl e => raise e
           | inr true => ret true
           | inr false =>
               let* _ := modify (set_subscriptions (subscriptions svc ++ [sub])) in
               ret true
           end
         else ret false
     | _, _ => ret false
     end)
    (fun _ => ret false).

(** [[sub for sub in self.subscriptions if sub['endpoint'] != endpoint]]. *)
Fixpoint keep_others (ep : string) (subs : list subscription) : exc + list subscription :=
  match subs with
  | [] => inr []
  | s :: rest =>
      match s_endpoint s with
      | None => inl KeyError
      | Some ep' =>
          match keep_others ep rest with
          | inl e => inl e
          | inr rest' => inr (if String.eqb ep' ep then rest' else s :: rest')
          end
      end
  end.

(** [WebPushService.unsubscribe]. *)
Definition unsubscribe (ep : string) : M service bool :=
  let* svc := get in
  let original_count := length (subscriptions svc) in
  match keep_others ep (subscriptions svc) with
  | inl e => raise e
  | inr subs' =>
      let* _ := modify (set_subscriptions subs') in
      ret (bool_decide (length subs' < original_count)%nat)
  end.

(** [bool(response)] of a [requests.Response] is [response.ok]: false for
    a 4xx or 5xx status. *)
Definition response_ok (status : Z) : bool :=
  negb ((400 <=? status) && (status <? 600)).

(** [e.response and e.response.status_code in [404, 410]]. *)
Definition gone (o : push_outcome) : bool :=
  match o with
  | PushRejected (Some st) => response_ok st && ((st =? 404) || (st =? 410))
  | _ => false
  end.

(** The loop of [send_notification] over [self.subscriptions]: counts the
    deliveries and collects the subscriptions found gone. *)
Fixpoint push_all (webpush : string -> subscription -> push_outcome) (title : string)
    (subs : list subscription) (successful_sends : nat) (failed : list subscription)
    : M service (nat * list subscription) :=
  match subs with
  | [] => ret (successful_sends, failed)
  | sub :: rest =>
      let* _ := modify (post sub title) in
      match webpush title sub with
      | Delivered => push_all webpush title rest (S successful_sends) failed
      | o => push_all webpush title rest successful_sends
               (if gone o then failed ++ [sub] else failed)
      end
  end.

(** [for failed_sub in failed_subscriptions:
       self.unsubscribe(failed_sub['endpoint'])]. *)
Fixpoint remove_failed (failed : list subscription) : M service unit :=
  match failed with
  | [] => ret tt
  | sub :: rest =>
      match s_endpoint sub with
      | None => raise KeyError
      | Some ep => let* _ := unsubscribe ep in remove_failed rest
      end
  end.

(** [WebPushService.send_notification]; the payload is represented by
    the notification title. *)
Definition send_notification (webpush : string -> subscription -> push_outcome)
    (title : string) : M service nat :=
  let* svc := get in
  match subscriptions svc with
  | [] => ret 0%nat
  | subs =>
      let* r := push_all webpush title subs 0%nat [] in
      let* _ := remove_failed (snd r) in
      ret (fst r)
  end.

(** The operations the application performs on the global service. *)
Inductive op :=
  | OpSubscribe (sub : subscription)
  | OpUnsubscribe (ep : string)
  | OpSend (webpush : string -> subscription -> push_outcome) (title : string).

Definition run_op (o : op) (svc : service) : service :=
  match o with
  | OpSubscribe sub => fst (subscribe sub svc)
  | OpUnsubscribe ep => fst (unsubscribe ep svc)
  | OpSend webpush title => fst (send_notification webpush title svc)
  end.

(** The states of [web_push_service]: it starts with no subscription and
    changes only through the operations above, one at a time. *)
Inductive reachable : service -> Prop :=
  | reach_init out : reachable (mk_service [] out)
  | reach_step svc o : reachable svc -> reachable (run_op o svc).

End WebPush.

(* ------------------------------------------------------------------ *)
(** ** [notification.ChapterNotifier] *)
(* ------------------------------------------------------------------ *)

Module Notifier.
Import Py Scheduler WebPush.
Import Downloader (lift_result).

(** The notifier object, the global push service it calls, and the
    e-mails handed to [send_email_notification] (recipient, chapter
    number). *)
Record notifier := mk_notifier {
  entries : list entry;
  smtp_config : gmap string string;
  push_service : service;
  mail_log : list (string * option Z) }.

Definition set_entries (es : list entry) (n : notifier) : notifier :=
  mk_notifier es (smtp_config n) (push_service n) (mail_log n).

Definition log_mail (recipient : string) (number : option Z) (n : notifier) : notifier :=
  mk_notifier (entries n) (smtp_config n) (push_service n)
    (mail_log n ++ [(recipient, number)]).

(** Run code on [web_push_service]. *)
Definition with_push {A} (m : M service A) : M notifier A :=
  fun n => let '(svc', r) := m (push_service n) in
           (mk_notifier (entries n) (smtp_config n) svc' (mail_log n), r).

(** [ChapterNotifier.refresh]; [fetched] is the outcome of
    [fetch_mangaliste_entries] for this call. *)
Definition refresh (fetched : exc + list entry) : M notifier unit :=
  try_except
    (let* es := lift_result fetched in
     modify (set_entries es))
    (fun _ => ret tt).

(** The sort key [x["number"]] once every key has been computed. *)
Definition number_key (e : entry) : Z := default 0 (e_number e).

(** [ChapterNotifier.check_for_update]. [sorted] computes every key
    [x["number"]] first (a missing one raises [KeyError]), then sorts
    stably on [<]. *)
Definition check_for_update (fetched : exc + list entry) (current_latest : Z)
    : M notifier (list entry) :=
  let* _ := refresh fetched in
  let* n := get in
  let new_entries := filter (fun e => current_latest < default 0 (e_number e)) (entries n) in
  match mapM e_number new_entries with
  | None => raise KeyError
  | Some _ => ret (py_sort Z.ltb number_key new_entries)
  end.

Definition required_keys : list string := ["host"; "port"; "username"; "password"; "sender"].

(** [required_keys - self.smtp_config.keys()]. *)
Definition missing (cfg : gmap string string) : list string :=
  filter (fun k => cfg !! k = None) required_keys.

(** The loop of [send_email_notifications]; [smtp recipient number] is
    the exception [send_email_notification] raises, if any. *)
Fixpoint send_each (smtp : string -> option Z -> option exc) (recipient : string)
    (es : list entry) : M notifier unit :=
  match es with
  | [] => ret tt
  | e :: rest =>
      let* _ := modify (log_mail recipient (e_number e)) in
      match smtp recipient (e_number e) with
      | Some x => raise x
      | None => send_each smtp recipient rest
      end
  end.

(** [ChapterNotifier.send_email_notifications]. *)
Definition send_email_notifications (smtp : string -> option Z -> option exc)
    (new_entries : list entry) (recipient : string) : M notifier unit :=
  match new_entries with
  | [] => ret tt
  | _ =>
      let* n := get in
      match missing (smtp_config n) with
      | [] => send_each smtp recipient new_entries
      | _ => raise KeyError
      end
  end.

(** [str(number)] for [entry.get("number")]. *)
Definition py_str (number : option Z) : string :=
  match number with Some z => pretty z | None => "None" end.

(** [entry.get("name", f"Kapitel {number}")]. *)
Definition entry_title (e : entry) : string :=
  match e_name e with Some t => t | None => "Kapitel " +:+ py_str (e_number e) end.

(** The [results] dict; [chapters = None] when the key is absent. *)
Record results := mk_results {
  email_sent : nat;
  push_sent : nat;
  total_chapters : nat;
  chapters : option (list (option Z * string)) }.

(** Code of [send_combined_notifications] runs on the notifier and on its
    local, mutable [results] dict. *)
Definition on_notifier {A} (m : M notifier A) : M (notifier * results) A :=
  fun '(n, r) => let '(n', x) := m n in ((n', r), x).

Definition update_results (f : results -> results) : M (notifier * results) unit :=
  modify (fun '(n, r) => (n, f r)).

Definition add_push (cnt : nat) (number : option Z) (title : string) (r : results) : results :=
  mk_results (email_sent r) (push_sent r + cnt) (total_chapters r)
    ((fun l => l ++ [(number, title)]) <$> chapters r).

Definition set_email_sent (k : nat) (r : results) : results :=
  mk_results k (push_sent r) (total_chapters r) (chapters r).

(** The push loop of [send_combined_notifications]. *)
Fixpoint push_entries (webpush : string -> subscription -> push_outcome)
    (es : list entry) : M (notifier * results) unit :=
  match es with
  | [] => ret tt
  | e :: rest =>
      let number := e_number e in
      let title := entry_title e in
      let* push_count := on_notifier (with_push
        (send_notification webpush ("Neues One Piece Kapitel " +:+ py_str number))) in
      let* _ := update_results (add_push push_count number title) in
      push_entries webpush rest
  end.

(** [bool(email_recipient)] for an [Optional[str]]. *)
Definition truthy_recipient (r : option string) : option string :=
  match r with Some s => if String.eqb s "" then None else Some s | None => None end.

(** [ChapterNotifier.send_combined_notifications]. *)
Definition send_combined_notifications (smtp : string -> option Z -> option exc)
    (webpush : string -> subscription -> push_outcome) (new_entries : list entry)
    (email_recipient : option string) (send_web_push : bool) : M notifier results :=
  match new_entries with
  | [] => ret (mk_results 0 0 0 None)
  | _ =>
      let body : M (notifier * results) unit :=
        let* _ :=
          match truthy_recipient email_recipient with
          | Some r =>
              try_except
                (let* _ := on_notifier (send_email_notifications smtp new_entries r) in
                 update_results (set_email_sent (length new_entries)))
                (fun _ => ret tt)
          | None => ret tt
          end in
        if send_web_push
        then try_except (push_entries webpush new_entries) (fun _ => ret tt)
        else ret tt in
      fun n =>
        match body (n, mk_results 0 0 (length new_entries) (Some [])) with
        | ((n', _), inl e) => (n', inl e)
        | ((n', r), inr _) => (n', inr r)
        end
  end.

End Notifier.

(* ------------------------------------------------------------------ *)
(** ** [utils.fetch_mangaliste_entries] *)
(* ------------------------------------------------------------------ *)

Module Mangaliste.
Import Py Resolver.

(** The literal part of the pattern: the word [entries], a double quote,
    a colon and an opening bracket. *)
Definition entries_marker : list ascii :=
  lit "entries" ++ ["034"%char; ":"%char; "["%char].

(** [(.*?)\]] under [re.DOTALL]: the shortest run of any characters
    followed by [\]]. *)
Fixpoint upto_bracket (acc l : list ascii) : option (list ascii) :=
  match l with
  | [] => None
  | c :: l' => if (c =? "]")%char then Some acc else upto_bracket (acc ++ [c]) l'
  end.

Definition match_entries_at (l : list ascii) : option (list ascii) :=
  match strip_prefix entries_marker l with
  | Some r => upto_bracket [] r
  | None => None
  end.

(** [re.search(pattern, html, re.DOTALL)] for the pattern [entries] + a
    double quote + [:\[(.*?)\]]: group 1 of the leftmost match. *)
Fixpoint search_entries (l : list ascii) : option (list ascii) :=
  match match_entries_at l with
  | Some g => Some g
  | None => match l with [] => None | _ :: l' => search_entries l' end
  end.

Definition mangaliste_url (base_url : string) : string :=
  rstrip_slash base_url +:+ "/manga/kapitel-mangaliste".

(** [utils.fetch_mangaliste_entries]. *)
Definition fetch_mangaliste_entries (net : string -> option http_response) (base_url : string)
    : M (list string) json :=
  let url := mangaliste_url base_url in
  let* resp := session_get net url in
  let* _ := raise_for_status resp in
  match search_entries (String.list_ascii_of_string (r_text resp)) with
  | None => raise RuntimeError
  | Some group =>
      match json_loads (["["%char] ++ group ++ ["]"%char]) with
      | None => raise JSONDecodeError
      | Some entries => ret entries
      end
  end.

End Mangaliste.

(* ------------------------------------------------------------------ *)
(** ** [UpdateScheduler._job] *)
(* ------------------------------------------------------------------ *)

Module Job.
Import Py Scheduler Downloader Notifier.

(** The objects [_job] works on: the downloader's storage, the notifier
    and [self.current_latest]. *)
Record sched := mk_sched {
  sc_world : world;
  sc_notifier : notifier;
  current_latest : Z }.

Definition on_world {A} (m : M world A) : M sched A :=
  fun s => let '(w', r) := m (sc_world s) in (mk_sched w' (sc_notifier s) (current_latest s), r).

Definition on_notif {A} (m : M notifier A) : M sched A :=
  fun s => let '(n', r) := m (sc_notifier s) in (mk_sched (sc_world s) n' (current_latest s), r).

(** [self.current_latest = max(self.current_latest, number)]. *)
Definition raise_latest (number : Z) : M sched unit :=
  modify (fun s => mk_sched (sc_world s) (sc_notifier s) (Z.max (current_latest s) number)).

(** The loop of [_job] over the new entries; [recipient] is [self.recipient]. *)
Fixpoint job_loop (E : env) (smtp : string -> option Z -> option exc)
    (recipient : option string) (es : list entry) : M sched unit :=
  match es with
  | [] => ret tt
  | e :: rest =>
      match e_number e with
      | None => job_loop E smtp recipient rest
      | Some number =>
          let* _ := try_except
            (let* _ := on_world (download_chapter E number) in
             let* _ := raise_latest number in
             match truthy_recipient recipient with
             | Some r => on_notif (send_email_notifications smtp [e] r)
             | None => ret tt
             end)
            (fun _ => ret tt) in
          job_loop E smtp recipient rest
      end
  end.

(** [UpdateScheduler._job]; [fetched] is the outcome of
    [fetch_mangaliste_entries] in the refresh of [check_for_update]. *)
Definition _job (E : env) (fetched : exc + list entry) (smtp : string -> option Z -> option exc)
    (recipient : option string) : M sched unit :=
  let* s := get in
  let* r := try_except
    (let* new_entries := on_notif (check_for_update fetched (current_latest s)) in
     ret (Some new_entries))
    (fun _ => ret None) in
  match r with
  | None => ret tt
  | Some new_entries => job_loop E smtp recipient new_entries
  end.

End Job.

(* ------------------------------------------------------------------ *)
(** ** The FastAPI endpoints of [app.py] *)
(* ------------------------------------------------------------------ *)

Module App.
Import Py Scheduler Downloader Notifier.

(** The global objects the endpoints use: the downloader's storage and
    the notifier (whose push service is [web_push_service]). *)
Record app := mk_app { a_world : world; a_notifier : notifier }.

(** What an endpoint may raise: an exception of the modelled code, a
    [NameError] for an unbound name, an [AttributeError] for a missing
    method, or an [HTTPException] with its status code. *)
Inductive app_exc :=
  | PyExc (e : exc)
  | NameError (name : string)
  | AttributeError (name : string)
  | HTTPException (code : Z).

Definition AM (A : Type) : Type := app -> app * (app_exc + A).

Definition aret {A} (a : A) : AM A := fun s => (s, inr a).
Definition araise {A} (x : app_exc) : AM A := fun s => (s, inl x).
Definition abind {A B} (m : AM A) (k : A -> AM B) : AM B :=
  fun s => match m s with
           | (s', inl x) => (s', inl x)
           | (s', inr a) => k a s'
           end.
Definition aget : AM app := fun s => (s, inr s).

(** [try: m except ...: h], the state reached by [m] kept. *)
Definition atry {A} (m : AM A) (h : app_exc -> AM A) : AM A :=
  fun s => match m s with
           | (s', inl x) => h x s'
           | r => r
           end.

Notation "'let+' x ':=' m 'in' k" := (abind m (fun x => k))
  (at level 200, x name, m at level 100, k at level 200).

Definition lift_exc {A} (r : exc + A) : app_exc + A :=
  match r with inl e => inl (PyExc e) | inr a => inr a end.

Definition on_world {A} (m : M world A) : AM A :=
  fun s => let '(w', r) := m (a_world s) in (mk_app w' (a_notifier s), lift_exc r).

Definition on_notifier {A} (m : M notifier A) : AM A :=
  fun s => let '(n', r) := m (a_notifier s) in (mk_app (a_world s) n', lift_exc r).

Definition on_push {A} (m : M WebPush.service A) : AM A := on_notifier (with_push m).

Definition from_result {A} (r : app_exc + A) : AM A :=
  match r with inl x => araise x | inr a => aret a end.

(** Reading a module-level name of [app.py] that holds a storage path:
    [DEFAULT_STORAGE_DIR] (the downloader's [storage_dir]) is the only one
    the module binds; [STORAGE_DIR] is bound neither there nor among the
    builtins, so reading it raises [NameError]. *)
Definition load_global (E : env) (name : string) : app_exc + string :=
  if String.eqb name "DEFAULT_STORAGE_DIR" then inr (storage_dir E) else inl (NameError name).


(** [p] is [d] or lies below it. *)
Definition under (d p : string) : bool := String.eqb p d || String.prefix (d +:+ "/") p.

(** [shutil.rmtree(d)]: [d] and everything below it disappear; a missing
    directory raises. *)
Definition rmtree (d : string) : M world unit :=
  fun w =>
    if bool_decide (d ∈ w_dirs w) then
      (mk_world (filter (fun kv => under d (kv.1).1 = false) (w_files w))
                (filter (fun x => under d x = false) (w_dirs w)) (w_requests w), inr tt)
    else (w, inl OSError).



(** [latest_available]. *)
Definition latest_available : AM Z :=
  let+ s := aget in
  match get_latest_number (entries (a_notifier s)) with
  | None => araise (HTTPException 500)
  | Some latest => aret latest
  end.


(** The [PushSubscription] body: [endpoint] and the key names of [keys]. *)
Record push_subscription := mk_push_subscription {
  ps_endpoint : string; ps_keys : list string }.

(** [subscription.dict()]. *)
Definition subscription_dict (ps : push_subscription) : WebPush.subscription :=
  WebPush.mk_sub (Some (ps_endpoint ps)) (Some (ps_keys ps)).

(** [subscribe_to_push]. *)
Definition subscribe_to_push (ps : push_subscription) : AM string :=
  let+ success := on_push (WebPush.subscribe (subscription_dict ps)) in
  if success then aret "subscribed" else araise (HTTPException 400).

(** [unsubscribe_from_push]. *)
Definition unsubscribe_from_push (endpoint : string) : AM string :=
  let+ success := on_push (WebPush.unsubscribe endpoint) in
  aret (if success then "unsubscribed" else "not_found").

(** [delete_chapter]: every exception, an [HTTPException] included,
    becomes a 500. *)
Definition delete_chapter (E : env) (chapter_number : Z) : AM Z :=
  atry
    (let+ storage := from_result (load_global E "STORAGE_DIR") in
     let chapter_dir := mk_path storage (pretty chapter_number) in
     let+ s := aget in
     if exists_path chapter_dir (a_world s) then
       let+ _ := on_world (rmtree (full chapter_dir)) in
       aret chapter_number
     else araise (HTTPException 404))
    (fun _ => araise (HTTPException 500)).

(** [download_pdf] and [download_cbz]: [ChapterDownloader] has no
    [_create_pdf_from_images] nor [_create_cbz_from_images] method; its
    constructor creates the storage directory. *)
Definition download_export (E : env) (ext maker : string) (chapter_number : Z) : AM path :=
  atry
    (let+ storage := from_result (load_global E "STORAGE_DIR") in
     let export_path := mk_path (storage +:+ "/" +:+ pretty chapter_number)
                          ("onepiece_" +:+ pretty chapter_number +:+ "." +:+ ext) in
     let+ s := aget in
     let+ _ :=
       if exists_path export_path (a_world s) then aret tt
       else
         let+ storage' := from_result (load_global E "STORAGE_DIR") in
         let+ _ := on_world (mkdir_p storage') in
         araise (AttributeError maker) in
     let+ s' := aget in
     if exists_path export_path (a_world s') then aret export_path
     else araise (HTTPException 404))
    (fun _ => araise (HTTPException 500)).

Definition download_pdf (E : env) (chapter_number : Z) : AM path :=
  download_export E "pdf" "_create_pdf_from_images" chapter_number.

Definition download_cbz (E : env) (chapter_number : Z) : AM path :=
  download_export E "cbz" "_create_cbz_from_images" chapter_number.

(** The [reason] of a failed deletion: ["not found"], or [str(e)] of the
    exception raised. *)
Inductive failure_reason := NotFound | Raised (x : app_exc).

Record delete_report := mk_delete_report {
  deleted : list Z;
  failed : list (Z * failure_reason);
  total_requested : nat;
  total_deleted : nat }.

(** The body of the inner [try] for one chapter: [true] when it was deleted. *)
Definition delete_one (E : env) (chapter_number : Z) : AM bool :=
  let+ storage := from_result (load_global E "STORAGE_DIR") in
  let chapter_dir := mk_path storage (pretty chapter_number) in
  let+ s := aget in
  if exists_path chapter_dir (a_world s) then
    let+ _ := on_world (rmtree (full chapter_dir)) in
    aret true
  else aret false.

Fixpoint delete_each (E : env) (chapter_numbers : list Z) (deleted : list Z)
    (failed : list (Z * failure_reason)) : AM (list Z * list (Z * failure_reason)) :=
  match chapter_numbers with
  | [] => aret (deleted, failed)
  | n :: rest =>
      fun s => match delete_one E n s with
               | (s', inr true) => delete_each E rest (deleted ++ [n]) failed s'
               | (s', inr false) => delete_each E rest deleted (failed ++ [(n, NotFound)]) s'
               | (s', inl x) => delete_each E rest deleted (failed ++ [(n, Raised x)]) s'
               end
  end.

(** [delete_multiple_chapters]. *)
Definition delete_multiple_chapters (E : env) (chapter_numbers : list Z) : AM delete_report :=
  atry
    (let+ r := delete_each E chapter_numbers [] [] in
     aret (mk_delete_report r.1 r.2 (length chapter_numbers) (length r.1)))
    (fun _ => araise (HTTPException 500)).

End App.

(* ================================================================== *)
(** * Properties *)
(* ================================================================== *)

(* ------------------------------------------------------------------ *)
(** ** Scheduler start-up *)
(* ------------------------------------------------------------------ *)

Module SchedulerSpec.
Import Scheduler.

Lemma fold_max_spec (ns : list Z) (n : Z) :
  fold_left Z.max ns n ∈ n :: ns /\ Forall (fun m => m <= fold_left Z.max ns n) (n :: ns).
Proof.
  revert n. induction ns as [|m ns IH]; intros n; simpl.
  - split; [by left|]. constructor; [lia|constructor].
  - destruct (IH (Z.max n m)) as [Hin Hle].
    inversion Hle as [|? ? Hnm Hrest]; subst. split.
    + apply elem_of_cons in Hin as [->|Hin]; [|by right; right].
      destruct (Z.max_spec n m) as [[_ ->]|[_ ->]]; [by right; left|by left].
    + constructor; [lia|]. constructor; [lia|done].
Qed.

Lemma highest_downloaded_max listing d :
  _get_highest_downloaded listing = Some d ->
  d ∈ local_numbers listing /\ Forall (fun n => n <= d) (local_numbers listing).
Proof.
  unfold _get_highest_downloaded.
  destruct (local_numbers listing) as [|n ns]; [done|].
  intros [= <-]. apply fold_max_spec.
Qed.

(** C1 (as the code does it): the watermark starts at the highest
    integer-named local chapter directory when there is one and it is not
    0, whatever the resolver reports; otherwise at the resolver's highest
    entry number, or 0 when the snapshot is empty. *)
Theorem initial_current_latest_local_first (listing : list dir_entry) (entries : list entry) :
  (forall d, _get_highest_downloaded listing = Some d ->
     d ∈ local_numbers listing /\ Forall (fun n => n <= d) (local_numbers listing)) /\
  (forall d, _get_highest_downloaded listing = Some d -> d <> 0 ->
     initial_current_latest listing entries = d) /\
  ((forall d, _get_highest_downloaded listing = Some d -> d = 0) ->
     initial_current_latest listing entries = default 0 (get_latest_number entries)).
Proof.
  split; [apply highest_downloaded_max|]. unfold initial_current_latest, py_or. split.
  - intros d -> Hd. by rewrite (proj2 (Z.eqb_neq d 0) Hd).
  - intros H0. assert (Hl : forall b, match _get_highest_downloaded listing with
      | Some z => if z =? 0 then b else z | None => b end = b).
    { intros b. destruct (_get_highest_downloaded listing) as [z|] eqn:E; [|done].
      by rewrite (H0 z eq_refl). }
    rewrite Hl. destruct (get_latest_number entries) as [l|]; [|done].
    simpl. destruct (Z.eqb_spec l 0); congruence.
Qed.

Definition listing_100 : list dir_entry :=
  [mk_dir_entry "100" true; mk_dir_entry "tmp" true; mk_dir_entry "200" false].
Definition snapshot_120 : list entry :=
  [mk_entry (Some 118) (Some "a"); mk_entry (Some 120) (Some "b")].

Lemma initial_current_latest_local_first_witness :
  _get_highest_downloaded listing_100 = Some 100 /\
  initial_current_latest listing_100 snapshot_120 = 100.
Proof.
  split; [reflexivity|].
  apply (proj1 (proj2 (initial_current_latest_local_first listing_100 snapshot_120)) 100);
    [reflexivity|lia].
Defined.

(** C1 counterexample: 100 is stored locally, the resolver's latest is
    120, and the watermark starts at 100, not at max(100, 120, 0) = 120. *)
Lemma initial_current_latest_not_max :
  _get_highest_downloaded listing_100 = Some 100 /\
  get_latest_number snapshot_120 = Some 120 /\
  initial_current_latest listing_100 snapshot_120 = 100 /\
  initial_current_latest listing_100 snapshot_120 <> Z.max (Z.max 100 120) 0.
Proof. vm_compute. repeat split; discriminate. Qed.

End SchedulerSpec.

(* ------------------------------------------------------------------ *)
(** ** Image download *)
(* ------------------------------------------------------------------ *)

Module DownloaderSpec.
Import Downloader.

Lemma download_image_skip (E : env) url dest w :
  exists_path dest w = true -> _download_image E url dest w = (w, inr tt).
Proof. intros H. unfold _download_image, bind, get. by rewrite H. Qed.

(** C2 (as the code does it): when the destination is missing and the
    response is a success, [_download_image] opens and writes the final
    path itself: no other file is created, a write that fails after [k]
    bytes leaves those [k] bytes at the destination and raises, and a
    later call then sees the destination as present and skips it. *)
Theorem download_image_writes_final_path (E : env) url dest w r :
  exists_path dest w = false ->
  net_get E url = Some r ->
  ~ (400 <= status_code r < 600) ->
  let '(w', res) := _download_image E url dest w in
  w_files w' = <[key dest := Blob (match write_fails_at E dest with
                                  | Some k => take k (content r)
                                  | None => content r end)]> (w_files w) /\
  res = (match write_fails_at E dest with Some _ => inl OSError | None => inr tt end) /\
  _download_image E url dest w' = (w', inr tt).
Proof.
  intros Hex Hget Hst.
  unfold _download_image at 1, bind at 1, get at 1. rewrite Hex.
  unfold bind, session_get. rewrite Hget.
  unfold raise_for_status. rewrite (bool_decide_eq_false_2 _ Hst).
  unfold ret, mkdir_p, modify, write_bytes.
  destruct (write_fails_at E dest) as [k|]; simpl;
    (split; [done|split; [done|]]); apply download_image_skip;
    unfold exists_path; simpl; rewrite lookup_insert_eq; done.
Qed.

Definition env_partial : env :=
  mk_env "data"
    (fun _ => Some (mk_response 200 [Byte.x41; Byte.x42; Byte.x43]))
    (fun _ => inl ValueError)
    (fun _ => Some 1%nat).

Definition dest_01 : path := mk_path "data/1156/images" "01.jpg".

Lemma download_image_writes_final_path_witness :
  w_files (fst (_download_image env_partial "https://h/1156/01.jpg" dest_01
                  (mk_world ∅ ∅ []))) !! key dest_01 = Some (Blob [Byte.x41]).
Proof.
  pose proof (download_image_writes_final_path env_partial "https://h/1156/01.jpg"
                dest_01 (mk_world ∅ ∅ []) (mk_response 200 [Byte.x41; Byte.x42; Byte.x43])
                eq_refl eq_refl) as H.
  destruct (_download_image env_partial "https://h/1156/01.jpg" dest_01 (mk_world ∅ ∅ []))
    as [w' res].
  destruct H as [Hf _]; [simpl; lia|]. simpl. rewrite Hf. reflexivity.
Defined.

(** C2 counterexample: the response has 3 bytes, the write fails after
    the first; [_download_image] raises and the final path holds the
    1-byte prefix. *)
Lemma download_image_partial_file_visible :
  let '(w', res) := _download_image env_partial "https://h/1156/01.jpg" dest_01
                      (mk_world ∅ ∅ []) in
  res = inl OSError /\
  w_files w' !! key dest_01 = Some (Blob [Byte.x41]) /\
  [Byte.x41] <> [Byte.x41; Byte.x42; Byte.x43].
Proof. vm_compute. repeat split. discriminate. Qed.

End DownloaderSpec.

(* ------------------------------------------------------------------ *)
(** ** Chapter download: page order and idempotence *)
(* ------------------------------------------------------------------ *)

Module ChapterSpec.
Import Downloader DownloaderSpec.

Lemma lift_result_inv {S A} (r : exc + A) (s s' : S) a :
  lift_result r s = (s', inr a) -> r = inr a /\ s' = s.
Proof. unfold lift_result, raise, ret. destruct r; intros H; inversion H; auto. Qed.

Lemma download_pages_paths (E : env) dir pages w w' ps :
  download_pages E dir pages w = (w', inr ps) -> ps = page_paths dir pages.
Proof.
  revert w ps. induction pages as [|pg pages IH]; intros w ps H; simpl in H.
  - unfold ret in H. by inversion H.
  - destruct (pg_url pg) as [[|c url]|] eqn:Eu;
      try (unfold page_paths, local_names; simpl; rewrite Eu; by apply (IH w ps)).
    unfold page_paths, local_names. simpl. rewrite Eu.
    apply bind_inr_inv in H as (w1 & [] & _ & H).
    apply bind_inr_inv in H as (w2 & ps' & H & Hr).
    unfold ret in Hr. inversion Hr; subst. simpl. f_equal. by apply (IH w1 ps').
Qed.

Lemma download_pages_skip (E : env) dir pages w :
  (forall p, p ∈ page_paths dir pages -> exists_path p w = true) ->
  download_pages E dir pages w = (w, inr (page_paths dir pages)).
Proof.
  induction pages as [|pg pages IH]; intros Hex; simpl; [done|].
  revert Hex. unfold page_paths, local_names. simpl.
  destruct (pg_url pg) as [[|c url]|]; try by apply IH. intros Hex.
  rewrite (bind_inr _ _ _ w tt).
  2:{ apply download_image_skip, Hex. by left. }
  rewrite (bind_inr _ _ _ w (page_paths dir pages)); [done|].
  apply IH. intros p Hp. apply Hex. by right.
Qed.

Lemma read_images_blobs files ps bs :
  read_images files ps = inr bs -> forall p, p ∈ ps -> exists b, files !! key p = Some (Blob b).
Proof.
  revert bs. induction ps as [|q ps IH]; intros bs H p Hp; [by apply elem_of_nil in Hp|].
  simpl in H. destruct (files !! key q) as [[b| |]|] eqn:Eq; try discriminate.
  destruct (read_images files ps) as [e|bs'] eqn:Er; [discriminate|].
  apply elem_of_cons in Hp as [->|Hp]; [by eauto|]. by apply (IH bs').
Qed.

Lemma read_images_insert files ps k f :
  (forall p, p ∈ ps -> key p <> k) -> read_images (<[k := f]> files) ps = read_images files ps.
Proof.
  induction ps as [|q ps IH]; intros Hk; simpl; [done|].
  rewrite lookup_insert_ne; [|by apply not_eq_sym, Hk; left].
  rewrite IH; [done|]. intros p Hp. apply Hk. by right.
Qed.

Lemma create_epub_inv (E : env) chapter title ps out w w' :
  _create_epub E chapter title ps out w = (w', inr tt) ->
  exists bs, read_images (w_files w) ps = inr bs /\ write_fails_at E out = None /\
    w_files w' = <[key out := EpubFile (make_book chapter title ps bs)]> (w_files w) /\
    w_requests w' = w_requests w.
Proof.
  unfold _create_epub, bind at 1, get. destruct (read_images (w_files w) ps) as [e|bs].
  - unfold raise. discriminate.
  - unfold bind, mkdir_p, modify, write_epub. simpl.
    destruct (write_fails_at E out); [discriminate|]. intros [= <-]. by exists bs.
Qed.

Lemma create_epub_ok (E : env) chapter title ps out w bs :
  read_images (w_files w) ps = inr bs -> write_fails_at E out = None ->
  _create_epub E chapter title ps out w =
    (mk_world (<[key out := EpubFile (make_book chapter title ps bs)]> (w_files w))
              ({[p_dir out]} ∪ w_dirs w) (w_requests w), inr tt).
Proof.
  intros Hr Hw. unfold _create_epub, bind at 1, get. rewrite Hr.
  unfold bind, mkdir_p, modify, write_epub. simpl. by rewrite Hw.
Qed.

Definition after_mkdirs (E : env) (chapter : Z) (w : world) : world :=
  mk_world (w_files w) ({[images_dir E chapter]} ∪ ({[chapter_dir E chapter]} ∪ w_dirs w))
           (w_requests w).

Lemma download_chapter_inv (E : env) chapter w w1 p :
  download_chapter E chapter w = (w1, inr p) ->
  exists data wb,
    fetch_meta E chapter = inr data /\
    download_pages E (images_dir E chapter) (ch_pages data) (after_mkdirs E chapter w) =
      (wb, inr (page_paths (images_dir E chapter) (ch_pages data))) /\
    _create_epub E chapter (ch_name data)
      (py_sort str_lt p_name (page_paths (images_dir E chapter) (ch_pages data)))
      (epub_path E chapter) wb = (w1, inr tt) /\
    p = epub_path E chapter.
Proof.
  unfold download_chapter. intros H.
  apply bind_inr_inv in H as (s1 & data & Hd & H).
  apply lift_result_inv in Hd as [Hd ->].
  apply bind_inr_inv in H as (s2 & [] & H2 & H). unfold mkdir_p, modify in H2.
  inversion H2; subst s2. clear H2.
  apply bind_inr_inv in H as (s3 & [] & H3 & H). unfold mkdir_p, modify in H3.
  inversion H3; subst s3. clear H3.
  apply bind_inr_inv in H as (wb & ps & Hps & H).
  pose proof (download_pages_paths _ _ _ _ _ _ Hps) as ->.
  apply bind_inr_inv in H as (w2 & [] & Hc & Hr).
  unfold ret in Hr. inversion Hr; subst. exists data, wb. by repeat split.
Qed.

Lemma string_app_neq (s t : string) : t <> EmptyString -> s +:+ t <> s.
Proof.
  intros Ht. induction s as [|c s IH]; [done|].
  change (String c s +:+ t) with (String c (s +:+ t)). intros Heq.
  injection Heq as Heq. by apply IH.
Qed.

Lemma page_paths_dir dir pages p : p ∈ page_paths dir pages -> p_dir p = dir.
Proof. unfold page_paths. intros (n & -> & _)%list_elem_of_fmap. done. Qed.

Lemma sorted_paths_dir E chapter pages p :
  p ∈ py_sort str_lt p_name (page_paths (images_dir E chapter) pages) ->
  p_dir p = images_dir E chapter.
Proof. rewrite py_sort_perm. apply page_paths_dir. Qed.

Lemma images_not_epub E chapter pages p :
  p ∈ py_sort str_lt p_name (page_paths (images_dir E chapter) pages) ->
  key p <> key (epub_path E chapter).
Proof.
  intros Hp. apply sorted_paths_dir in Hp. unfold key. intros [= Hd _].
  rewrite Hp in Hd. by apply (string_app_neq (chapter_dir E chapter) "/images").
Qed.

Lemma package_order_sorted E chapter pages :
  StronglySorted String.le (package_order E chapter pages).
Proof.
  unfold package_order. apply (StronglySorted_fmap p_name (fun x y => String.le (p_name x) (p_name y))); [done|].
  apply (py_sort_sorted str_lt p_name String.le); [apply str_lt_le|apply str_not_lt_ge].
Qed.

Lemma package_order_perm E chapter pages :
  package_order E chapter pages ≡ₚ local_names pages.
Proof.
  unfold package_order. rewrite py_sort_perm. unfold page_paths.
  rewrite <- list_fmap_compose. apply reflexive_eq. apply list_fmap_id.
Qed.

Lemma package_order_unique E chapter pages names :
  StronglySorted String.le names -> local_names pages ≡ₚ names ->
  package_order E chapter pages = names.
Proof.
  intros Hs Hp. apply (StronglySorted_unique String.le); [apply package_order_sorted|done|].
  by rewrite package_order_perm.
Qed.

Lemma book_page_images chapter title ps bs :
  pi_image <$> bk_pages (make_book chapter title ps bs) = image_href <$> (p_name <$> ps).
Proof.
  simpl. rewrite fmap_imap, <- list_fmap_compose.
  apply (imap_const (image_href ∘ p_name)).
Qed.

Definition scan_order : list string := ["01.jpg"; "02.jpg"; "03-04.jpg"; "05.jpg"].

Lemma scan_order_sorted : StronglySorted String.le scan_order.
Proof. repeat constructor. Qed.

(** C3: after a successful [download_chapter], the EPUB at the returned
    path shows the images in [package_order]: the local file names sorted
    lexicographically. That order is a permutation of the saved names and
    does not depend on the order of the resolver's page list; names
    01.jpg, 02.jpg, 03-04.jpg, 05.jpg in any order give 01, 02, 03-04, 05. *)
Theorem download_chapter_lexicographic_order (E : env) (chapter : Z) (w w' : world)
    (p : path) (data : chapter_data) :
  fetch_meta E chapter = inr data ->
  download_chapter E chapter w = (w', inr p) ->
  (exists b, w_files w' !! key p = Some (EpubFile b) /\
     pi_image <$> bk_pages b = image_href <$> package_order E chapter (ch_pages data)) /\
  StronglySorted String.le (package_order E chapter (ch_pages data)) /\
  package_order E chapter (ch_pages data) ≡ₚ local_names (ch_pages data) /\
  (forall pages', pages' ≡ₚ ch_pages data ->
     package_order E chapter pages' = package_order E chapter (ch_pages data)) /\
  (forall pages', local_names pages' ≡ₚ scan_order ->
     package_order E chapter pages' = scan_order).
Proof.
  intros Hmeta Hdl.
  apply download_chapter_inv in Hdl as (data' & wb & Hd & Hps & Hc & ->).
  rewrite Hmeta in Hd. injection Hd as <-.
  apply create_epub_inv in Hc as (bs & Hr & _ & Hf & _).
  split; [|split; [apply package_order_sorted|split; [apply package_order_perm|split]]].
  - exists (make_book chapter (ch_name data)
              (py_sort str_lt p_name (page_paths (images_dir E chapter) (ch_pages data))) bs).
    rewrite Hf, lookup_insert_eq. split; [done|]. apply book_page_images.
  - intros pages' Hperm. apply package_order_unique; [apply package_order_sorted|].
    rewrite (package_order_perm E chapter (ch_pages data)). unfold local_names.
    by rewrite Hperm.
  - intros pages' Hperm. apply package_order_unique; [apply scan_order_sorted|done].
Qed.

Definition pages_scan : list page :=
  [mk_page (Some "https://h/1156/05.jpg"); mk_page (Some "https://h/1156/03-04.jpg");
   mk_page None; mk_page (Some "https://h/1156/01.jpg");
   mk_page (Some "https://h/1156/02.jpg")].

Definition env_scan : env :=
  mk_env "data"
    (fun _ => Some (mk_response 200 [Byte.x41]))
    (fun _ => inr (mk_chapter_data "Kapitel" pages_scan))
    (fun _ => None).

Definition world_empty : world := mk_world ∅ ∅ [].

Lemma pages_scan_names : local_names pages_scan ≡ₚ scan_order.
Proof.
  change (["05.jpg"; "03-04.jpg"; "01.jpg"; "02.jpg"] ≡ₚ scan_order).
  unfold scan_order. solve_Permutation.
Qed.

Lemma download_chapter_lexicographic_order_witness :
  package_order env_scan 1156 pages_scan = scan_order.
Proof.
  destruct (download_chapter env_scan 1156 world_empty) as [w' r] eqn:E.
  destruct r as [e|p]; [vm_compute in E; discriminate|].
  exact (proj2 (proj2 (proj2 (proj2 (download_chapter_lexicographic_order env_scan 1156
    world_empty w' p _ eq_refl E)))) pages_scan pages_scan_names).
Defined.

(** C4: [download_chapter] is idempotent. A call that returned a path
    returned [storage_dir/<chapter>/onepiece_<chapter>.epub]; a second call
    with the same remote side, on the world the first left, returns the same
    path and sends no image request, since [_download_image] returns
    without a request whenever its destination exists. *)
Theorem download_chapter_idempotent (E : env) (chapter : Z) (w w1 : world) (p : path) :
  download_chapter E chapter w = (w1, inr p) ->
  p = epub_path E chapter /\
  (forall url dest w0, exists_path dest w0 = true -> _download_image E url dest w0 = (w0, inr tt)) /\
  exists w2, download_chapter E chapter w1 = (w2, inr p) /\ w_requests w2 = w_requests w1.
Proof.
  intros Hdl. pose proof Hdl as Hinv.
  apply download_chapter_inv in Hinv as (data & wb & Hd & Hps & Hc & ->).
  split; [done|]. split; [intros ???; apply download_image_skip|].
  set (S := py_sort str_lt p_name (page_paths (images_dir E chapter) (ch_pages data))) in *.
  apply create_epub_inv in Hc as (bs & Hr & Hw & Hf & Hq).
  (* the images read by the first call are still there, next to the EPUB *)
  assert (Hr1 : read_images (w_files w1) S = inr bs).
  { rewrite Hf, read_images_insert; [done|]. apply images_not_epub. }
  assert (Hex : forall q, q ∈ page_paths (images_dir E chapter) (ch_pages data) ->
                  exists_path q (after_mkdirs E chapter w1) = true).
  { intros q Hq'. assert (Hs : q ∈ S) by (unfold S; by rewrite py_sort_perm).
    destruct (read_images_blobs _ _ _ Hr1 q Hs) as [b Hb].
    unfold exists_path. simpl. rewrite Hb. done. }
  eexists. split.
  - unfold download_chapter.
    rewrite (bind_inr _ _ w1 w1 data); [|unfold lift_result; by rewrite Hd].
    rewrite (bind_inr _ _ w1 (mk_world (w_files w1) ({[chapter_dir E chapter]} ∪ w_dirs w1)
                                          (w_requests w1)) tt); [|reflexivity].
    rewrite (bind_inr _ _ _ (after_mkdirs E chapter w1) tt); [|reflexivity].
    rewrite (bind_inr _ _ _ _ _ (download_pages_skip E _ _ _ Hex)).
    fold S.
    rewrite (bind_inr _ _ _ _ tt (create_epub_ok E chapter (ch_name data) S
               (epub_path E chapter) (after_mkdirs E chapter w1) bs Hr1 Hw)).
    reflexivity.
  - done.
Qed.

Lemma download_chapter_idempotent_witness :
  let w1 := fst (download_chapter env_scan 1156 world_empty) in
  exists w2, download_chapter env_scan 1156 w1 = (w2, inr (epub_path env_scan 1156)) /\
             w_requests w2 = w_requests w1.
Proof.
  destruct (download_chapter env_scan 1156 world_empty) as [w1 r] eqn:E.
  destruct r as [e|p]; [vm_compute in E; discriminate|].
  destruct (download_chapter_idempotent env_scan 1156 world_empty w1 p E) as (-> & _ & H).
  exact H.
Defined.

End ChapterSpec.

(* ------------------------------------------------------------------ *)
(** ** Failure classification of [fetch_chapter_data] *)
(* ------------------------------------------------------------------ *)

Module ResolverSpec.
Import Resolver.

Lemma view_source_no_adapter url : has_adapter ("view-source:" +:+ url) = false.
Proof. reflexivity. Qed.

(** The three documented outcomes: a 404 and the unavailability marker
    raise [ValueError] after the first request only (nothing else is
    fetched or parsed); a page without a [window.__data] block raises
    [RuntimeError]. *)
Lemma fetch_chapter_data_classification net base chapter (log : list string) r :
  let url := chapter_url base chapter in
  has_adapter url = true ->
  net url = Some r ->
  (r_status r = 404 -> fetch_chapter_data net base chapter log = (log ++ [url], inl ValueError)) /\
  (r_status r <> 404 -> contains unavailable_marker (r_text r) = true ->
     fetch_chapter_data net base chapter log = (log ++ [url], inl ValueError)) /\
  (r_status r <> 404 -> contains unavailable_marker (r_text r) = false ->
     search_window_data (String.list_ascii_of_string (r_text r)) = None ->
     fetch_chapter_data net base chapter log = (log ++ [url], inl RuntimeError)).
Proof.
  intros url Had Hnet.
  unfold fetch_chapter_data. fold url.
  rewrite (bind_inr _ _ log (log ++ [url]) r); [|unfold session_get; by rewrite Had, Hnet].
  split; [|split].
  - intros H404. rewrite H404. reflexivity.
  - intros H404 Hm. rewrite (proj2 (Z.eqb_neq _ _) H404), Hm. reflexivity.
  - intros H404 Hm Hs. rewrite (proj2 (Z.eqb_neq _ _) H404), Hm.
    unfold bind at 1, try_except, bind at 1, session_get.
    rewrite view_source_no_adapter. unfold ret. rewrite Hs. reflexivity.
Qed.

Definition broken_page : string :=
  "<html><script>window.__data = {broken};</script></html>".

Definition net_broken (url : string) : option http_response :=
  if String.eqb url "https://onepiece.tube/manga/kapitel/1156/1"
  then Some (mk_http 200 broken_page) else None.

(** C6 failing input: a 200 page whose [window.__data] block is present
    but is not valid JSON. [json.loads] raises [json.JSONDecodeError],
    which is a [ValueError] (the class used for an unavailable chapter),
    not a [RuntimeError]. *)
Theorem fetch_chapter_data_malformed_block_value_error :
  fetch_chapter_data net_broken "https://onepiece.tube" 1156 [] =
    (["https://onepiece.tube/manga/kapitel/1156/1"], inl JSONDecodeError) /\
  search_window_data (String.list_ascii_of_string broken_page) = Some (lit "{broken}") /\
  is_value_error JSONDecodeError = true /\ is_runtime_error JSONDecodeError = false.
Proof. vm_compute. repeat split. Qed.

End ResolverSpec.

(* ------------------------------------------------------------------ *)
(** ** The push subscription store *)
(* ------------------------------------------------------------------ *)

Module WebPushSpec.
Import Py WebPush.

Definition endpoints (svc : service) : list (option string) := s_endpoint <$> subscriptions svc.

(** [subscribe]'s validation: [endpoint] and [keys] present, and [keys]
    holding [p256dh] and [auth]. *)
Definition valid (sub : subscription) : bool :=
  match s_endpoint sub, s_keys sub with
  | Some _, Some ks => bool_decide ("p256dh" ∈ ks) && bool_decide ("auth" ∈ ks)
  | _, _ => false
  end.

(** Every stored subscription has an endpoint, and no two share one. *)
Definition wf (subs : list subscription) : Prop :=
  (None ∉ s_endpoint <$> subs) /\ NoDup (s_endpoint <$> subs).

Lemma find_existing_spec ep subs :
  None ∉ s_endpoint <$> subs ->
  find_existing ep subs = inr (bool_decide (Some ep ∈ s_endpoint <$> subs)).
Proof.
  induction subs as [|s subs IH]; intros Hn; simpl; [done|].
  simpl in Hn. rewrite elem_of_cons in Hn.
  destruct (s_endpoint s) as [ep'|] eqn:Hs; [|naive_solver].
  destruct (String.eqb_spec ep' ep) as [->|Hne].
  - rewrite bool_decide_eq_true_2; [done|]. by left.
  - rewrite IH by naive_solver. f_equal. apply bool_decide_ext.
    rewrite elem_of_cons. naive_solver.
Qed.

Lemma keep_others_spec ep subs :
  None ∉ s_endpoint <$> subs ->
  keep_others ep subs = inr (filter (fun s => s_endpoint s <> Some ep) subs).
Proof.
  induction subs as [|s subs IH]; intros Hn; simpl; [done|].
  simpl in Hn. rewrite elem_of_cons in Hn.
  destruct (s_endpoint s) as [ep'|] eqn:Hs; [|naive_solver].
  rewrite IH by naive_solver. rewrite filter_cons, Hs.
  destruct (String.eqb_spec ep' ep) as [->|Hne].
  - rewrite decide_False; [done|]. naive_solver.
  - rewrite decide_True; [done|]. congruence.
Qed.

Lemma filter_shorter ep subs :
  bool_decide (length (filter (fun s => s_endpoint s <> Some ep) subs) < length subs)%nat =
  bool_decide (Some ep ∈ s_endpoint <$> subs).
Proof.
  apply bool_decide_ext.
  induction subs as [|s subs IH]; simpl.
  - split; [lia|]. intros H. by apply elem_of_nil in H.
  - rewrite filter_cons, elem_of_cons. pose proof (length_filter (A:=subscription)
      (fun s => s_endpoint s <> Some ep) subs) as Hlen. case_decide as Hd; simpl.
    + rewrite <- IH. split; [lia|]. intros [Heq|Hin]; [congruence|lia].
    + split; [intros _; left; apply dec_stable; congruence|lia].
Qed.


Lemma wf_filter (P : subscription -> Prop) `{!forall x, Decision (P x)} subs :
  wf subs -> wf (filter P subs).
Proof.
  unfold wf. induction subs as [|s subs IH]; [done|]. simpl.
  rewrite filter_cons, elem_of_cons, NoDup_cons. intros (Hn & Hnot & Hnd).
  destruct IH as [IH1 IH2]; [naive_solver|].
  case_decide; simpl; [|done].
  rewrite elem_of_cons, NoDup_cons. split; [naive_solver|]. split; [|done].
  intros Hin. apply Hnot. apply list_elem_of_fmap in Hin as [s' [Hs' Hin]].
  apply list_elem_of_filter in Hin as [_ Hin].
  apply list_elem_of_fmap. eauto.
Qed.

Lemma subscribe_spec sub svc :
  wf (subscriptions svc) ->
  subscribe sub svc =
    if valid sub then
      if bool_decide (s_endpoint sub ∈ endpoints svc) then (svc, inr true)
      else (set_subscriptions (subscriptions svc ++ [sub]) svc, inr true)
    else (svc, inr false).
Proof.
  intros [Hn _]. unfold subscribe, valid, try_except.
  destruct (s_endpoint sub) as [ep|] eqn:He; [|reflexivity].
  destruct (s_keys sub) as [ks|]; [|reflexivity].
  destruct (bool_decide _ && bool_decide _); [|reflexivity].
  unfold bind, get. rewrite find_existing_spec by exact Hn.
  unfold endpoints. by destruct (bool_decide _).
Qed.

Lemma unsubscribe_spec ep svc :
  wf (subscriptions svc) ->
  unsubscribe ep svc =
    (set_subscriptions (filter (fun s => s_endpoint s <> Some ep) (subscriptions svc)) svc,
     inr (bool_decide (Some ep ∈ endpoints svc))).
Proof.
  intros [Hn _]. unfold unsubscribe, bind, get.
  rewrite keep_others_spec by exact Hn. unfold modify, ret.
  by rewrite filter_shorter.
Qed.

Lemma wf_subscribe sub svc :
  wf (subscriptions svc) -> wf (subscriptions (fst (subscribe sub svc))).
Proof.
  intros Hwf. rewrite subscribe_spec by exact Hwf.
  destruct (valid sub) eqn:Hv; [|done].
  case_decide as Hin; [done|]. simpl.
  destruct Hwf as [Hn Hnd]. unfold wf. rewrite fmap_app. simpl.
  unfold valid in Hv. destruct (s_endpoint sub) as [ep|]; [|discriminate].
  split.
  - rewrite elem_of_app, list_elem_of_singleton. naive_solver.
  - apply NoDup_app. split; [done|]. split; [|apply NoDup_singleton].
    intros x Hx ->%list_elem_of_singleton. done.
Qed.

Lemma wf_unsubscribe ep svc :
  wf (subscriptions svc) -> wf (subscriptions (fst (unsubscribe ep svc))).
Proof.
  intros Hwf. rewrite unsubscribe_spec by exact Hwf. simpl. by apply wf_filter.
Qed.

Lemma gone_false (o : push_outcome) : gone o = false.
Proof.
  destruct o as [|[st|]|]; try reflexivity. simpl. unfold response_ok.
  destruct (Z.eqb_spec st 404) as [->|]; [reflexivity|].
  destruct (Z.eqb_spec st 410) as [->|]; [reflexivity|].
  by rewrite andb_false_r.
Qed.

Lemma push_all_ok webpush title subs k failed svc :
  exists svc' k', push_all webpush title subs k failed svc = (svc', inr (k', failed)) /\
                  subscriptions svc' = subscriptions svc.
Proof.
  revert k svc. induction subs as [|sub subs IH]; intros k svc; simpl.
  - by exists svc, k.
  - unfold bind at 1, modify.
    destruct (webpush title sub) as [|status|] eqn:Ho; cbv beta iota;
      [ destruct (IH (S k) (post sub title svc)) as (svc' & k' & H & Hs)
      | pose proof (gone_false (PushRejected status)) as G; simpl in G; rewrite G;
        destruct (IH k (post sub title svc)) as (svc' & k' & H & Hs)
      | destruct (IH k (post sub title svc)) as (svc' & k' & H & Hs) ];
      exists svc', k'; by rewrite H, Hs.
Qed.

(** [send_notification] never raises and leaves the subscriptions as
    they are: the 404/410 branch cannot be taken, since such a response
    is falsy. *)
Lemma send_notification_ok webpush title svc :
  exists svc' k, send_notification webpush title svc = (svc', inr k) /\
                 subscriptions svc' = subscriptions svc.
Proof.
  unfold send_notification, bind at 1, get.
  destruct (subscriptions svc) as [|sub subs] eqn:Hsubs; [by exists svc, 0%nat|].
  destruct (push_all_ok webpush title (sub :: subs) 0 [] svc) as (svc' & k' & H & Hs).
  rewrite (bind_inr _ _ _ _ _ H). exists svc', k'. split; [reflexivity|]. by rewrite Hs.
Qed.

Lemma wf_run_op o svc : wf (subscriptions svc) -> wf (subscriptions (run_op o svc)).
Proof.
  intros Hwf. destruct o as [sub|ep|webpush title]; simpl.
  - by apply wf_subscribe.
  - by apply wf_unsubscribe.
  - destruct (send_notification_ok webpush title svc) as (svc' & k & H & Hs).
    by rewrite H; simpl; rewrite Hs.
Qed.

Lemma reachable_wf svc : reachable svc -> wf (subscriptions svc).
Proof.
  induction 1 as [out|svc o _ IH].
  - split; [by intros ?%elem_of_nil|constructor].
  - by apply wf_run_op.
Qed.

(** C10: in every state the service can reach (operations applied one
    at a time, from the empty store), no two stored subscriptions share an
    endpoint and each has one. From such a state, [subscribe] of a valid
    subscription whose endpoint is stored returns True and changes
    nothing; a valid new one is appended; an invalid one returns False and
    changes nothing. [unsubscribe ep] keeps exactly the subscriptions whose
    endpoint differs from [ep], and returns True exactly when [ep] was
    stored. Every operation leads to a reachable state, so uniqueness is
    preserved. *)
Theorem subscriptions_endpoint_unique (svc : service) :
  reachable svc ->
  NoDup (endpoints svc) /\ (None ∉ endpoints svc) /\
  (forall sub, valid sub = true -> s_endpoint sub ∈ endpoints svc ->
     subscribe sub svc = (svc, inr true)) /\
  (forall sub, valid sub = true -> s_endpoint sub ∉ endpoints svc ->
     subscribe sub svc = (set_subscriptions (subscriptions svc ++ [sub]) svc, inr true)) /\
  (forall sub, valid sub = false -> subscribe sub svc = (svc, inr false)) /\
  (forall ep, unsubscribe ep svc =
     (set_subscriptions (filter (fun s => s_endpoint s <> Some ep) (subscriptions svc)) svc,
      inr (bool_decide (Some ep ∈ endpoints svc)))) /\
  (forall o, reachable (run_op o svc) /\ NoDup (endpoints (run_op o svc))).
Proof.
  intros Hr. pose proof (reachable_wf svc Hr) as Hwf.
  split; [apply Hwf|]. split; [apply Hwf|].
  split; [|split; [|split; [|split]]].
  - intros sub Hv Hin. rewrite subscribe_spec, Hv by exact Hwf.
    by rewrite bool_decide_eq_true_2.
  - intros sub Hv Hin. rewrite subscribe_spec, Hv by exact Hwf.
    by rewrite bool_decide_eq_false_2.
  - intros sub Hv. by rewrite subscribe_spec, Hv by exact Hwf.
  - intros ep. by apply unsubscribe_spec.
  - intros o. split; [by constructor|]. apply (reachable_wf _ (reach_step svc o Hr)).
Qed.

Definition sub_a : subscription := mk_sub (Some "https://push.example/a") (Some ["p256dh"; "auth"]).
Definition sub_a_again : subscription := mk_sub (Some "https://push.example/a") (Some ["auth"; "p256dh"]).
Definition sub_no_auth : subscription := mk_sub (Some "https://push.example/b") (Some ["p256dh"]).

(** The service after one subscription. *)
Definition service_a : service := run_op (OpSubscribe sub_a) (mk_service [] []).

Lemma subscriptions_endpoint_unique_witness :
  reachable service_a /\
  subscribe sub_a_again service_a = (service_a, inr true) /\
  subscribe sub_no_auth service_a = (service_a, inr false) /\
  unsubscribe "https://push.example/a" service_a = (mk_service [] [], inr true) /\
  NoDup (endpoints service_a) /\ (None ∉ endpoints service_a) /\
  (forall sub, valid sub = true -> s_endpoint sub ∈ endpoints service_a ->
     subscribe sub service_a = (service_a, inr true)) /\
  (forall sub, valid sub = true -> s_endpoint sub ∉ endpoints service_a ->
     subscribe sub service_a = (set_subscriptions (subscriptions service_a ++ [sub]) service_a, inr true)) /\
  (forall sub, valid sub = false -> subscribe sub service_a = (service_a, inr false)) /\
  (forall ep, unsubscribe ep service_a =
     (set_subscriptions (filter (fun s => s_endpoint s <> Some ep) (subscriptions service_a)) service_a,
      inr (bool_decide (Some ep ∈ endpoints service_a)))) /\
  (forall o, reachable (run_op o service_a) /\ NoDup (endpoints (run_op o service_a))).
Proof.
  assert (Hr : reachable service_a) by (apply reach_step, reach_init).
  split; [exact Hr|].
  split; [vm_compute; reflexivity|]. split; [vm_compute; reflexivity|].
  split; [vm_compute; reflexivity|].
  exact (subscriptions_endpoint_unique service_a Hr).
Defined.

End WebPushSpec.

(* ------------------------------------------------------------------ *)
(** ** [ChapterNotifier]: update detection and notification channels *)
(* ------------------------------------------------------------------ *)

Module NotifierSpec.
Import Py Scheduler WebPush Notifier.

Lemma filter_nil_Forall {A} (P : A -> Prop) `{!forall x, Decision (P x)} (l : list A) :
  filter P l = [] <-> Forall (fun x => ~ P x) l.
Proof.
  induction l as [|x l IH]; [split; auto|].
  rewrite filter_cons, Forall_cons. case_decide.
  - split; [discriminate|]. intros [? _]. contradiction.
  - rewrite IH. naive_solver.
Qed.

(** The entries after [refresh]. *)
Definition refreshed (fetched : exc + list entry) (n : notifier) : notifier :=
  match fetched with inr es => set_entries es n | inl _ => n end.

Lemma refresh_refreshed fetched n : refresh fetched n = (refreshed fetched n, inr tt).
Proof. by destruct fetched. Qed.

(** C7: [refresh] is fail-soft. When [fetch_mangaliste_entries] raises,
    the notifier, its cached entries included, is left exactly as it was
    and nothing is raised. When it returns a list, that list replaces the
    cache as a whole. *)
Theorem refresh_fail_soft (n : notifier) :
  (forall e, refresh (inl e) n = (n, inr tt)) /\
  (forall es, refresh (inr es) n = (set_entries es n, inr tt)).
Proof. split; intros; reflexivity. Qed.

(** C5: when every entry of the refreshed snapshot has a number,
    [check_for_update current_latest] refreshes and then returns, without
    raising, a list [l]. [l] is a permutation of the snapshot's entries whose
    number exceeds [current_latest], sorted by ascending number. [l] is
    empty exactly when no entry exceeds [current_latest]. *)
Theorem check_for_update_spec (fetched : exc + list entry) (current_latest : Z) (n : notifier) :
  Forall (fun e => is_Some (e_number e)) (entries (refreshed fetched n)) ->
  exists l,
    check_for_update fetched current_latest n = (refreshed fetched n, inr l) /\
    l ≡ₚ filter (fun e => current_latest < number_key e) (entries (refreshed fetched n)) /\
    StronglySorted (fun x y => number_key x <= number_key y) l /\
    (l = [] <-> Forall (fun e => number_key e <= current_latest) (entries (refreshed fetched n))).
Proof.
  intros Hnum. unfold check_for_update.
  rewrite (bind_inr _ _ n _ tt (refresh_refreshed fetched n)).
  unfold bind at 1, get.
  set (es := entries (refreshed fetched n)).
  change (filter (fun e => current_latest < default 0 (e_number e)) es)
    with (filter (fun e => current_latest < number_key e) es).
  set (new := filter (fun e => current_latest < number_key e) es).
  destruct (mapM_is_Some_2 e_number new) as [ks Hks].
  { apply Forall_forall. intros x Hx. apply list_elem_of_filter in Hx as [_ Hx].
    rewrite Forall_forall in Hnum. by apply Hnum. }
  rewrite Hks. eexists. split; [reflexivity|]. split; [|split].
  - apply py_sort_perm.
  - apply (py_sort_sorted Z.ltb number_key Z.le).
    + intros a b H. apply Z.ltb_lt in H. lia.
    + intros a b H. apply Z.ltb_ge in H. lia.
  - split.
    + intros Hl. assert (Hn : new = []).
      { apply Permutation_nil. rewrite <- (py_sort_perm Z.ltb number_key new), Hl. done. }
      apply filter_nil_Forall in Hn. eapply Forall_impl; [exact Hn|]. simpl. lia.
    + intros Hle. assert (Hn : new = []).
      { apply filter_nil_Forall. eapply Forall_impl; [exact Hle|]. simpl. lia. }
      apply Permutation_nil. rewrite (py_sort_perm Z.ltb number_key new). by rewrite Hn.
Qed.

Definition snapshot_10_12_11 : list entry :=
  [mk_entry (Some 10) (Some "A"); mk_entry (Some 12) (Some "C"); mk_entry (Some 11) (Some "B")].

Definition notifier_init : notifier := mk_notifier [] ∅ (mk_service [] []) [].

Lemma check_for_update_spec_witness :
  Forall (fun e => is_Some (e_number e)) (entries (refreshed (inr snapshot_10_12_11) notifier_init)) /\
  check_for_update (inr snapshot_10_12_11) 10 notifier_init =
    (refreshed (inr snapshot_10_12_11) notifier_init,
     inr [mk_entry (Some 11) (Some "B"); mk_entry (Some 12) (Some "C")]) /\
  exists l, check_for_update (inr snapshot_10_12_11) 10 notifier_init =
              (refreshed (inr snapshot_10_12_11) notifier_init, inr l) /\
            l ≡ₚ filter (fun e => 10 < number_key e) (entries (refreshed (inr snapshot_10_12_11) notifier_init)) /\
            StronglySorted (fun x y => number_key x <= number_key y) l /\
            (l = [] <-> Forall (fun e => number_key e <= 10) (entries (refreshed (inr snapshot_10_12_11) notifier_init))).
Proof.
  assert (H : Forall (fun e => is_Some (e_number e)) (entries (refreshed (inr snapshot_10_12_11) notifier_init))).
  { repeat constructor; eexists; reflexivity. }
  split; [exact H|]. split; [vm_compute; reflexivity|].
  exact (check_for_update_spec (inr snapshot_10_12_11) 10 notifier_init H).
Defined.


Definition chapter_item (e : entry) : option Z * string := (e_number e, entry_title e).

Lemma push_entries_ok webpush es n r cs :
  chapters r = Some cs ->
  exists n' cnt, push_entries webpush es (n, r) =
    ((n', mk_results (email_sent r) (push_sent r + cnt) (total_chapters r)
                     (Some (cs ++ (chapter_item <$> es)))), inr tt).
Proof.
  revert n r cs. induction es as [|e es IH]; intros n r cs Hc; simpl.
  - exists n, 0%nat. rewrite Nat.add_0_r, app_nil_r, <- Hc. by destruct r.
  - destruct (WebPushSpec.send_notification_ok webpush ("Neues One Piece Kapitel " +:+ py_str (e_number e))
                (push_service n)) as (svc' & k & Hs & _).
    unfold bind at 1, on_notifier, with_push. rewrite Hs.
    unfold bind at 1, update_results, modify.
    destruct (IH (mk_notifier (entries n) (smtp_config n) svc' (mail_log n))
                 (add_push k (e_number e) (entry_title e) r) (cs ++ [chapter_item e]))
      as (n' & cnt & H).
    { unfold add_push. simpl. by rewrite Hc. }
    rewrite H. exists n', (k + cnt)%nat. simpl.
    by rewrite Nat.add_assoc, <- app_assoc.
Qed.

Lemma on_notifier_inl {A} (m : M notifier A) n r n1 e :
  m n = (n1, inl e) -> on_notifier m (n, r) = ((n1, r), inl e).
Proof. unfold on_notifier. by intros ->. Qed.

Lemma bind_ret_state {S} (s : S) : @ret S unit tt s = (s, inr tt).
Proof. reflexivity. Qed.

(** C8: for a non-empty batch and a non-empty recipient, if the e-mail
    channel raises, [send_combined_notifications] (with web push on) still
    returns a summary. It returns exactly what a push-only call, started
    from the state the failed e-mail attempt left, returns. [email_sent] is
    0, [total_chapters] is the batch size, and [chapters] lists every entry
    of the batch in order: the push channel ran for each entry. *)
Theorem send_combined_email_failure_isolated smtp webpush (new_entries : list entry)
    (recipient : string) (n n1 : notifier) (e : exc) :
  new_entries <> [] ->
  recipient <> "" ->
  send_email_notifications smtp new_entries recipient n = (n1, inl e) ->
  exists n2 res,
    send_combined_notifications smtp webpush new_entries (Some recipient) true n = (n2, inr res) /\
    send_combined_notifications smtp webpush new_entries None true n1 = (n2, inr res) /\
    email_sent res = 0%nat /\
    total_chapters res = length new_entries /\
    chapters res = Some (chapter_item <$> new_entries).
Proof.
  intros Hne Hr Hmail.
  destruct new_entries as [|e0 es0]; [done|].
  set (es := e0 :: es0) in *.
  set (r0 := mk_results 0 0 (length es) (Some [])).
  destruct (push_entries_ok webpush es n1 r0 [] eq_refl) as (n2 & cnt & Hpush).
  exists n2, (mk_results 0 (0 + cnt) (length es) (Some ([] ++ (chapter_item <$> es)))).
  assert (Ht : truthy_recipient (Some recipient) = Some recipient).
  { simpl. destruct (String.eqb_spec recipient ""); [contradiction|reflexivity]. }
  assert (Hpush' : try_except (push_entries webpush es) (fun _ => ret tt) (n1, r0) =
                   ((n2, mk_results 0 (0 + cnt) (length es) (Some ([] ++ (chapter_item <$> es)))), inr tt)).
  { unfold try_except. by rewrite Hpush. }
  split; [|split; [|repeat split]].
  - unfold send_combined_notifications. cbv beta iota zeta. subst es. rewrite Ht.
    unfold bind at 1. unfold try_except at 1. unfold bind at 1.
    fold r0. rewrite (on_notifier_inl _ n r0 n1 e Hmail). unfold ret at 1.
    rewrite Hpush'. reflexivity.
  - unfold send_combined_notifications. cbv beta iota zeta. subst es.
    unfold bind at 1. fold r0. change (truthy_recipient None) with (@None string). cbv beta iota.
    rewrite (bind_ret_state (n1, r0)). cbv beta iota. rewrite Hpush'. reflexivity.
Qed.


Definition subscriber_a : subscription := mk_sub (Some "https://push.example/a") (Some ["p256dh"; "auth"]).

Definition batch_11_12 : list entry :=
  [mk_entry (Some 11) (Some "B"); mk_entry (Some 12) None].

(** No SMTP configuration (the e-mail channel raises [KeyError]) and one
    push subscriber. *)
Definition notifier_push_only : notifier :=
  mk_notifier [] ∅ (mk_service [subscriber_a] []) [].

Definition smtp_up (_ : string) (_ : option Z) : option exc := None.
Definition webpush_up (_ : string) (_ : subscription) : push_outcome := Delivered.

Lemma send_combined_email_failure_isolated_witness :
  send_email_notifications smtp_up batch_11_12 "you@example.com" notifier_push_only =
    (notifier_push_only, inl KeyError) /\
  (exists n', send_combined_notifications smtp_up webpush_up batch_11_12
                 (Some "you@example.com") true notifier_push_only =
               (n', inr (mk_results 0 2 2 (Some [(Some 11, "B"); (Some 12, "Kapitel 12")])))) /\
  exists n2 res,
    send_combined_notifications smtp_up webpush_up batch_11_12 (Some "you@example.com") true notifier_push_only = (n2, inr res) /\
    send_combined_notifications smtp_up webpush_up batch_11_12 None true notifier_push_only = (n2, inr res) /\
    email_sent res = 0%nat /\
    total_chapters res = length batch_11_12 /\
    chapters res = Some (chapter_item <$> batch_11_12).
Proof.
  assert (H : send_email_notifications smtp_up batch_11_12 "you@example.com" notifier_push_only =
              (notifier_push_only, inl KeyError)) by reflexivity.
  split; [exact H|]. split.
  { exists (fst (send_combined_notifications smtp_up webpush_up batch_11_12
                   (Some "you@example.com") true notifier_push_only)).
    vm_compute. reflexivity. }
  apply (send_combined_email_failure_isolated smtp_up webpush_up batch_11_12 "you@example.com"
           notifier_push_only notifier_push_only KeyError); [discriminate|discriminate|exact H].
Defined.

Lemma missing_nil_iff (cfg : gmap string string) :
  missing cfg = [] <-> forall k, k ∈ required_keys -> is_Some (cfg !! k).
Proof.
  unfold missing. rewrite filter_nil_Forall, Forall_forall.
  split; intros H k Hk; specialize (H k Hk); by apply not_eq_None_Some.
Qed.

(** C9 (as the code does it): for a non-empty batch with one of host,
    port, username, password or sender missing, [send_email_notifications]
    raises [KeyError] before any e-mail is sent (the notifier, its mail log
    included, is unchanged). For an empty batch it returns without looking
    at the configuration. With all five keys present it goes on to send
    entry by entry. *)
Theorem send_email_notifications_config_check smtp (new_entries : list entry)
    (recipient : string) (n : notifier) :
  (new_entries <> [] -> (exists k, k ∈ required_keys /\ smtp_config n !! k = None) ->
     send_email_notifications smtp new_entries recipient n = (n, inl KeyError)) /\
  (new_entries = [] -> send_email_notifications smtp new_entries recipient n = (n, inr tt)) /\
  ((forall k, k ∈ required_keys -> is_Some (smtp_config n !! k)) ->
     send_email_notifications smtp new_entries recipient n = send_each smtp recipient new_entries n).
Proof.
  split; [|split].
  - intros Hne [k [Hk Hnone]]. destruct new_entries as [|e es]; [done|].
    unfold send_email_notifications, bind, get.
    destruct (missing (smtp_config n)) eqn:Hm; [|reflexivity].
    destruct (proj1 (missing_nil_iff (smtp_config n)) Hm k Hk) as [v Hv]. congruence.
  - intros ->. reflexivity.
  - intros Hall. apply (proj2 (missing_nil_iff (smtp_config n))) in Hall.
    destruct new_entries as [|e es]; [reflexivity|].
    unfold send_email_notifications, bind, get. by rewrite Hall.
Qed.

Definition smtp_full : gmap string string :=
  <["host" := "smtp.example"]> (<["port" := "587"]> (<["username" := "u"]>
    (<["password" := "p"]> (<["sender" := "bot@example"]> ∅)))).

Definition notifier_no_sender : notifier :=
  mk_notifier [] (delete "sender" smtp_full) (mk_service [] []) [].

Lemma send_email_notifications_config_check_witness :
  send_email_notifications smtp_up batch_11_12 "you@example.com" notifier_no_sender =
    (notifier_no_sender, inl KeyError) /\
  ((batch_11_12 <> [] -> (exists k, k ∈ required_keys /\ smtp_config notifier_no_sender !! k = None) ->
     send_email_notifications smtp_up batch_11_12 "you@example.com" notifier_no_sender = (notifier_no_sender, inl KeyError)) /\
   ([] = @nil entry -> send_email_notifications smtp_up [] "you@example.com" notifier_no_sender = (notifier_no_sender, inr tt)) /\
   ((forall k, k ∈ required_keys -> is_Some (smtp_config notifier_no_sender !! k)) ->
     send_email_notifications smtp_up batch_11_12 "you@example.com" notifier_no_sender =
     send_each smtp_up "you@example.com" batch_11_12 notifier_no_sender)).
Proof.
  assert (Hk : exists k, k ∈ required_keys /\ smtp_config notifier_no_sender !! k = None).
  { exists "sender". split; [unfold required_keys; set_solver|vm_compute; reflexivity]. }
  split.
  - apply (send_email_notifications_config_check smtp_up batch_11_12 "you@example.com" notifier_no_sender);
      [discriminate|exact Hk].
  - pose proof (send_email_notifications_config_check smtp_up batch_11_12 "you@example.com" notifier_no_sender)
      as [H1 [_ H3]].
    pose proof (send_email_notifications_config_check smtp_up [] "you@example.com" notifier_no_sender)
      as [_ [H2 _]].
    auto.
Defined.

(** C9 counterexample: with no SMTP configuration at all (all five keys
    missing), a call with an empty batch returns normally: no [KeyError]. *)
Lemma send_email_empty_batch_skips_config_check :
  missing (smtp_config notifier_init) = required_keys /\
  send_email_notifications smtp_up [] "you@example.com" notifier_init = (notifier_init, inr tt).
Proof. split; reflexivity. Qed.

End NotifierSpec.

(* ------------------------------------------------------------------ *)
Module WebPushExtra.
Import Py WebPush WebPushSpec.

Definition delivered (webpush : string -> subscription -> push_outcome) (title : string)
    (sub : subscription) : bool :=
  match webpush title sub with Delivered => true | _ => false end.

Lemma push_all_exact webpush title subs k svc :
  push_all webpush title subs k [] svc =
    (mk_service (subscriptions svc) (outbox svc ++ ((fun s => (s, title)) <$> subs)),
     inr ((k + length (filter (fun s => delivered webpush title s = true) subs))%nat, [])).
Proof.
  revert k svc. induction subs as [|sub subs IH]; intros k svc; simpl.
  - destruct svc. simpl. by rewrite app_nil_r, Nat.add_0_r.
  - unfold bind at 1, modify. rewrite filter_cons.
    destruct (webpush title sub) as [|status|] eqn:Ho; cbv beta iota;
      assert (Hd : delivered webpush title sub = match webpush title sub with
                                                 | Delivered => true | _ => false end)
        by reflexivity; rewrite Ho in Hd.
    + rewrite IH. simpl. rewrite decide_True by done. simpl.
      by rewrite <- app_assoc, Nat.add_succ_r.
    + pose proof (gone_false (PushRejected status)) as G; simpl in G; rewrite G.
      rewrite IH. simpl. rewrite decide_False by (rewrite Hd; done). by rewrite <- app_assoc.
    + rewrite IH. simpl. rewrite decide_False by (rewrite Hd; done). by rewrite <- app_assoc.
Qed.

(** [send_notification] calls [webpush] once for every stored
    subscription, in order, and returns the number of calls that
    succeeded. It never removes a subscription, not even one whose push
    service answered 404 or 410. *)
Theorem send_notification_exact webpush title svc :
  send_notification webpush title svc =
    (mk_service (subscriptions svc) (outbox svc ++ ((fun s => (s, title)) <$> subscriptions svc)),
     inr (length (filter (fun s => delivered webpush title s = true) (subscriptions svc)))).
Proof.
  unfold send_notification, bind at 1, get.
  destruct (subscriptions svc) as [|sub subs] eqn:Hs.
  - destruct svc as [subs0 out]. simpl in *. subst. by rewrite app_nil_r.
  - rewrite (bind_inr _ _ _ _ _ (push_all_exact webpush title (sub :: subs) 0 svc)).
    rewrite Hs. reflexivity.
Qed.

Lemma filter_all {A} (P : A -> Prop) `{!forall x, Decision (P x)} (l : list A) :
  (forall x, x ∈ l -> P x) -> filter P l = l.
Proof.
  induction l as [|x l IH]; intros Hall; [done|].
  rewrite filter_cons_True by (apply Hall; by left). f_equal. apply IH. intros y Hy. apply Hall. by right.
Qed.

(** Round trip: on a reachable service, subscribing a valid
    subscription whose endpoint is not stored yet appends it and returns
    [True]; unsubscribing that endpoint afterwards returns [True] and
    gives back exactly the service before the subscription. *)
Theorem subscribe_unsubscribe_roundtrip (svc : service) (sub : subscription) (ep : string) :
  reachable svc -> valid sub = true -> s_endpoint sub = Some ep ->
  Some ep ∉ endpoints svc ->
  subscribe sub svc = (set_subscriptions (subscriptions svc ++ [sub]) svc, inr true) /\
  unsubscribe ep (fst (subscribe sub svc)) = (svc, inr true).
Proof.
  intros Hr Hv He Hnot. pose proof (reachable_wf svc Hr) as Hwf.
  assert (Hs : subscribe sub svc = (set_subscriptions (subscriptions svc ++ [sub]) svc, inr true)).
  { rewrite subscribe_spec, Hv by exact Hwf. rewrite He, bool_decide_eq_false_2 by done. done. }
  split; [exact Hs|]. rewrite Hs. simpl.
  pose proof (wf_subscribe sub svc Hwf) as Hwf'. rewrite Hs in Hwf'. simpl in Hwf'.
  rewrite unsubscribe_spec by exact Hwf'. simpl.
  rewrite filter_app, filter_cons, decide_False by (intros H; apply H, He). rewrite app_nil_r.
  rewrite filter_all.
  2:{ intros x Hx Hx'. apply Hnot. unfold endpoints. rewrite <- Hx'. by apply list_elem_of_fmap_2. }
  rewrite bool_decide_eq_true_2; [by destruct svc|].
  unfold endpoints. simpl. rewrite fmap_app. apply elem_of_app. right. simpl. rewrite He. by left.
Qed.

Lemma subscribe_unsubscribe_roundtrip_witness :
  reachable (mk_service [] []) /\ valid sub_a = true /\
  s_endpoint sub_a = Some "https://push.example/a" /\
  (Some "https://push.example/a" ∉ endpoints (mk_service [] [])) /\
  subscribe sub_a (mk_service [] []) =
    (set_subscriptions (subscriptions (mk_service [] []) ++ [sub_a]) (mk_service [] []), inr true) /\
  unsubscribe "https://push.example/a" (fst (subscribe sub_a (mk_service [] []))) =
    (mk_service [] [], inr true).
Proof.
  assert (Hr : reachable (mk_service [] [])) by apply reach_init.
  assert (Hn : Some "https://push.example/a" ∉ endpoints (mk_service [] [])).
  { unfold endpoints. simpl. apply not_elem_of_nil. }
  split; [exact Hr|]. split; [reflexivity|]. split; [reflexivity|]. split; [exact Hn|].
  exact (subscribe_unsubscribe_roundtrip (mk_service [] []) sub_a "https://push.example/a"
           Hr eq_refl eq_refl Hn).
Defined.

(** On a reachable service, [subscribe] never raises and returns
    whether the subscription is valid; subscribing the same subscription
    a second time changes nothing and returns the same answer. A second
    [unsubscribe] of an endpoint changes nothing and returns [False]. *)
Theorem subscribe_unsubscribe_idempotent (svc : service) (sub : subscription) (ep : string) :
  reachable svc ->
  subscribe sub svc = (fst (subscribe sub svc), inr (valid sub)) /\
  subscribe sub (fst (subscribe sub svc)) = (fst (subscribe sub svc), inr (valid sub)) /\
  unsubscribe ep (fst (unsubscribe ep svc)) = (fst (unsubscribe ep svc), inr false).
Proof.
  intros Hr. pose proof (reachable_wf svc Hr) as Hwf.
  pose proof (wf_subscribe sub svc Hwf) as Hwf1.
  pose proof (wf_unsubscribe ep svc Hwf) as Hwf2.
  split; [|split].
  - rewrite subscribe_spec by exact Hwf. destruct (valid sub); [case_decide|]; reflexivity.
  - rewrite subscribe_spec by exact Hwf1. rewrite subscribe_spec in Hwf1 |- * by exact Hwf.
    destruct (valid sub) eqn:Hv; [|done].
    case_decide as Hin; simpl; [by rewrite bool_decide_eq_true_2|].
    rewrite bool_decide_eq_true_2; [done|].
    unfold endpoints. simpl. rewrite fmap_app. apply elem_of_app. right. by left.
  - rewrite unsubscribe_spec by exact Hwf2. rewrite unsubscribe_spec by exact Hwf. simpl.
    rewrite filter_all by (intros x Hx; by apply list_elem_of_filter in Hx as [? _]).
    rewrite bool_decide_eq_false_2; [done|].
    unfold endpoints. simpl. intros Hin. apply list_elem_of_fmap in Hin as [x [Hx Hin]].
    apply list_elem_of_filter in Hin as [Hne _]. congruence.
Qed.
Lemma subscribe_unsubscribe_idempotent_witness :
  reachable service_a /\
  subscribe sub_a_again (fst (subscribe sub_a_again service_a)) =
    (fst (subscribe sub_a_again service_a), inr true) /\
  unsubscribe "https://push.example/a" (fst (unsubscribe "https://push.example/a" service_a)) =
    (fst (unsubscribe "https://push.example/a" service_a), inr false).
Proof.
  assert (Hr : reachable service_a) by exact (reach_step _ (OpSubscribe sub_a) (reach_init [])).
  destruct (subscribe_unsubscribe_idempotent service_a sub_a_again "https://push.example/a" Hr)
    as (_ & H2 & H3).
  split; [exact Hr|]. split; [exact H2|exact H3].
Defined.
End WebPushExtra.

(* ------------------------------------------------------------------ *)
Module MangalisteSpec.
Import Py Resolver Mangaliste.

Lemma strip_prefix_app (pre r : list ascii) : strip_prefix pre (pre ++ r) = Some r.
Proof. induction pre as [|c pre IH]; simpl; [done|]. by rewrite Ascii.eqb_refl. Qed.

Lemma strip_prefix_some (pre l r : list ascii) : strip_prefix pre l = Some r -> l = pre ++ r.
Proof.
  revert l. induction pre as [|c pre IH]; intros l; simpl; [by intros [= ->]|].
  destruct l as [|d l]; [discriminate|].
  destruct (Ascii.eqb_spec c d) as [->|]; [|discriminate]. intros H. by rewrite (IH l H).
Qed.

Lemma upto_bracket_some acc l g :
  upto_bracket acc l = Some g ->
  exists g' post, l = g' ++ "]"%char :: post /\ ("]"%char ∉ g') /\ g = acc ++ g'.
Proof.
  revert acc. induction l as [|c l IH]; intros acc; simpl; [discriminate|].
  destruct (Ascii.eqb_spec c "]") as [->|Hc].
  - intros [= <-]. exists [], l. rewrite app_nil_r. split; [done|]. split; [|done].
    by intros ?%elem_of_nil.
  - intros H. destruct (IH _ H) as (g' & post & -> & Hn & ->).
    exists (c :: g'), post. split; [done|]. split.
    + rewrite elem_of_cons. intros [?|?]; [congruence|done].
    + by rewrite <- app_assoc.
Qed.

Lemma upto_bracket_elem acc l : "]"%char ∈ l -> is_Some (upto_bracket acc l).
Proof.
  revert acc. induction l as [|c l IH]; intros acc Hin; [by apply elem_of_nil in Hin|]. simpl.
  destruct (Ascii.eqb_spec c "]") as [->|Hc]; [by exists acc|].
  apply IH. apply elem_of_cons in Hin as [Heq|Hin]; [exfalso; apply Hc; symmetry; exact Heq|exact Hin].
Qed.

Lemma search_entries_first l g :
  search_entries l = Some g ->
  exists k, (k <= length l)%nat /\
    (forall j, (j < k)%nat -> match_entries_at (drop j l) = None) /\
    match_entries_at (drop k l) = Some g.
Proof.
  induction l as [|c l IH]; simpl.
  - intros H. vm_compute in H. discriminate H.
  - destruct (match_entries_at (c :: l)) as [g'|] eqn:Hm.
    + intros [= <-]. exists 0%nat. split; [lia|]. split; [lia|done].
    + intros H. destruct (IH H) as (k & Hk & Hbefore & Hat).
      exists (S k). split; [lia|]. split; [|done].
      intros [|j] Hj; [done|]. apply Hbefore. lia.
Qed.

Lemma search_entries_layout l g :
  search_entries l = Some g ->
  exists pre post,
    l = pre ++ entries_marker ++ g ++ "]"%char :: post /\ ("]"%char ∉ g) /\
    (forall pre' rest, l = pre' ++ entries_marker ++ rest -> (length pre <= length pre')%nat).
Proof.
  intros Hs. destruct (search_entries_first l g Hs) as (k & Hk & Hbefore & Hat).
  unfold match_entries_at in Hat.
  destruct (strip_prefix entries_marker (drop k l)) as [r|] eqn:Hr; [|discriminate].
  apply strip_prefix_some in Hr.
  destruct (upto_bracket_some [] r g Hat) as (g' & post & -> & Hn & ->).
  exists (take k l), post.
  assert (Hl : l = take k l ++ entries_marker ++ g' ++ "]"%char :: post).
  { by rewrite <- Hr, take_drop. }
  split; [exact Hl|]. split; [exact Hn|].
  intros pre' rest Hl'. rewrite length_take, Nat.min_l by exact Hk.
  destruct (Nat.le_gt_cases k (length pre')) as [?|Hj]; [done|exfalso].
  specialize (Hbefore _ Hj).
  assert (Hd : drop (length pre') l = entries_marker ++ rest).
  { rewrite Hl' at 1. by rewrite drop_app_length. }
  unfold match_entries_at in Hbefore. rewrite Hd, strip_prefix_app in Hbefore.
  assert (Hrest : rest = drop (length pre' + length entries_marker) l).
  { rewrite Hl', app_assoc, <- length_app. by rewrite drop_app_length. }
  destruct (upto_bracket_elem [] rest) as [x Hx]; [|congruence].
  rewrite Hrest, Hl, !app_assoc.
  rewrite drop_app_le.
  2:{ rewrite !length_app, length_take. lia. }
  apply elem_of_app. right. by left.
Qed.

Lemma fetch_mangaliste_entries_unfold net base log r :
  has_adapter (mangaliste_url base) = true -> net (mangaliste_url base) = Some r ->
  fetch_mangaliste_entries net base log =
    (log ++ [mangaliste_url base],
     if bool_decide (400 <= r_status r < 600) then inl HTTPError else
     match search_entries (lit (r_text r)) with
     | None => inl RuntimeError
     | Some g => match json_loads (["["%char] ++ g ++ ["]"%char]) with
                 | None => inl JSONDecodeError
                 | Some v => inr v
                 end
     end).
Proof.
  intros Ha Hn. unfold fetch_mangaliste_entries, bind at 1, session_get. rewrite Ha, Hn.
  unfold bind, raise_for_status, raise, ret.
  destruct (bool_decide (400 <= r_status r < 600)); [reflexivity|].
  destruct (search_entries _) as [g|]; [|reflexivity].
  by destruct (json_loads _).
Qed.

(** [fetch_mangaliste_entries] sends one request to the mangaliste page
    and lets a failed request propagate. A 4xx or 5xx answer raises
    [HTTPError]. A page without the [entries] marker raises [RuntimeError].
    A group that is not valid JSON once put in brackets raises
    [json.JSONDecodeError]: a [ValueError], not a [RuntimeError]. *)
Theorem fetch_mangaliste_entries_outcomes net base (log : list string) :
  has_adapter (mangaliste_url base) = true ->
  (net (mangaliste_url base) = None ->
     fetch_mangaliste_entries net base log = (log ++ [mangaliste_url base], inl ConnectionError)) /\
  (forall r, net (mangaliste_url base) = Some r -> 400 <= r_status r < 600 ->
     fetch_mangaliste_entries net base log = (log ++ [mangaliste_url base], inl HTTPError)) /\
  (forall r, net (mangaliste_url base) = Some r -> ~ (400 <= r_status r < 600) ->
     search_entries (lit (r_text r)) = None ->
     fetch_mangaliste_entries net base log = (log ++ [mangaliste_url base], inl RuntimeError)) /\
  (forall r g, net (mangaliste_url base) = Some r -> ~ (400 <= r_status r < 600) ->
     search_entries (lit (r_text r)) = Some g ->
     json_loads (["["%char] ++ g ++ ["]"%char]) = None ->
     fetch_mangaliste_entries net base log = (log ++ [mangaliste_url base], inl JSONDecodeError) /\
     is_value_error JSONDecodeError = true /\ is_runtime_error JSONDecodeError = false).
Proof.
  intros Ha. split; [|split; [|split]].
  - intros Hn. unfold fetch_mangaliste_entries, bind at 1, session_get. by rewrite Ha, Hn.
  - intros r Hn Hs. rewrite (fetch_mangaliste_entries_unfold net base log r Ha Hn).
    by rewrite bool_decide_eq_true_2.
  - intros r Hn Hs He. rewrite (fetch_mangaliste_entries_unfold net base log r Ha Hn).
    by rewrite bool_decide_eq_false_2, He.
  - intros r g Hn Hs He Hj. rewrite (fetch_mangaliste_entries_unfold net base log r Ha Hn).
    by rewrite bool_decide_eq_false_2, He, Hj.
Qed.

(** On success, [fetch_mangaliste_entries] has sent one request, got a
    non-error status, and returns [json.loads] of the text between the
    first [entries] marker of the page and the first [\]] after it, put
    in brackets. That text holds no [\]], so an entry whose text holds a
    [\]] is never returned whole. *)
Theorem fetch_mangaliste_entries_first_bracket net base (log log' : list string) (v : json) :
  fetch_mangaliste_entries net base log = (log', inr v) ->
  exists r, net (mangaliste_url base) = Some r /\ log' = log ++ [mangaliste_url base] /\
    ~ (400 <= r_status r < 600) /\
    exists pre g post,
      lit (r_text r) = pre ++ entries_marker ++ g ++ "]"%char :: post /\
      ("]"%char ∉ g) /\
      (forall pre' rest, lit (r_text r) = pre' ++ entries_marker ++ rest ->
         (length pre <= length pre')%nat) /\
      json_loads (["["%char] ++ g ++ ["]"%char]) = Some v.
Proof.
  destruct (has_adapter (mangaliste_url base)) eqn:Ha.
  2:{ unfold fetch_mangaliste_entries, bind at 1, session_get. rewrite Ha. discriminate. }
  destruct (net (mangaliste_url base)) as [r|] eqn:Hn.
  2:{ unfold fetch_mangaliste_entries, bind at 1, session_get. rewrite Ha, Hn. discriminate. }
  rewrite (fetch_mangaliste_entries_unfold net base log r Ha Hn).
  destruct (bool_decide (400 <= r_status r < 600)) eqn:Hs; [discriminate|].
  apply bool_decide_eq_false_1 in Hs.
  destruct (search_entries (lit (r_text r))) as [g|] eqn:He; [|discriminate].
  destruct (json_loads _) as [v'|] eqn:Hj; [|discriminate].
  intros [= <- <-]. exists r. split; [done|]. split; [done|]. split; [done|].
  destruct (search_entries_layout _ _ He) as (pre & post & Hl & Hnb & Hfirst).
  exists pre, g, post. done.
Qed.

(** A double quote, to build page texts. *)
Definition dq : string := String "034"%char EmptyString.

(** A mangaliste page whose second entry has a [\]] in its title. *)
Definition page_bracket_title : string :=
  "<script>var d = {" +:+ dq +:+ "entries" +:+ dq +:+ ":[{" +:+ dq +:+ "number" +:+ dq +:+
  ":1155},{" +:+ dq +:+ "number" +:+ dq +:+ ":1156," +:+ dq +:+ "name" +:+ dq +:+ ":" +:+
  dq +:+ "Kapitel [1156]" +:+ dq +:+ "}]};</script>".

(** A mangaliste page listing two entries. *)
Definition page_two_entries : string :=
  "<script>var d = {" +:+ dq +:+ "entries" +:+ dq +:+ ":[{" +:+ dq +:+ "number" +:+ dq +:+
  ":1155},{" +:+ dq +:+ "number" +:+ dq +:+ ":1156}]};</script>".

Definition net_page (page : string) (url : string) : option http_response :=
  if String.eqb url "https://onepiece.tube/manga/kapitel-mangaliste"
  then Some (mk_http 200 page) else None.

Lemma fetch_mangaliste_entries_outcomes_witness :
  has_adapter (mangaliste_url "https://onepiece.tube/") = true /\
  fetch_mangaliste_entries (net_page page_bracket_title) "https://onepiece.tube/" [] =
    (["https://onepiece.tube/manga/kapitel-mangaliste"], inl JSONDecodeError) /\
  is_value_error JSONDecodeError = true /\ is_runtime_error JSONDecodeError = false.
Proof.
  assert (Ha : has_adapter (mangaliste_url "https://onepiece.tube/") = true) by reflexivity.
  split; [exact Ha|].
  destruct (fetch_mangaliste_entries_outcomes (net_page page_bracket_title) "https://onepiece.tube/" [] Ha)
    as (_ & _ & _ & H4).
  apply (H4 (mk_http 200 page_bracket_title)
            (String.list_ascii_of_string
                    ("{" +:+ dq +:+ "number" +:+ dq +:+ ":1155},{" +:+ dq +:+ "number" +:+ dq +:+
                     ":1156," +:+ dq +:+ "name" +:+ dq +:+ ":" +:+ dq +:+ "Kapitel [1156")));
    [vm_compute; reflexivity | simpl; lia | vm_compute; reflexivity | vm_compute; reflexivity].
Defined.

Lemma fetch_mangaliste_entries_first_bracket_witness :
  exists v, fetch_mangaliste_entries (net_page page_two_entries) "https://onepiece.tube" [] =
              (["https://onepiece.tube/manga/kapitel-mangaliste"], inr v) /\
  exists r, net_page page_two_entries (mangaliste_url "https://onepiece.tube") = Some r /\
    ["https://onepiece.tube/manga/kapitel-mangaliste"] = [] ++ [mangaliste_url "https://onepiece.tube"] /\
    ~ (400 <= r_status r < 600) /\
    exists pre g post,
      lit (r_text r) = pre ++ entries_marker ++ g ++ "]"%char :: post /\
      ("]"%char ∉ g) /\
      (forall pre' rest, lit (r_text r) = pre' ++ entries_marker ++ rest ->
         (length pre <= length pre')%nat) /\
      json_loads (["["%char] ++ g ++ ["]"%char]) = Some v.
Proof.
  set (res := fetch_mangaliste_entries (net_page page_two_entries) "https://onepiece.tube" []).
  assert (H : res = (["https://onepiece.tube/manga/kapitel-mangaliste"],
                     inr (match snd res with inr v => v | inl _ => JNull end))).
  { subst res. vm_compute. reflexivity. }
  exists (match snd res with inr v => v | inl _ => JNull end). split; [exact H|].
  exact (fetch_mangaliste_entries_first_bracket _ _ _ _ _ H).
Defined.
End MangalisteSpec.

(* ------------------------------------------------------------------ *)
Module ResolverExtra.
Import Py Resolver ResolverSpec.



End ResolverExtra.

(* ------------------------------------------------------------------ *)
Module NotifierExtra.
Import Py Scheduler WebPush Notifier NotifierSpec.

Lemma fold_latest_spec (es : list entry) (m : Z) :
  let r := fold_left (fun m e => Z.max m (number_key e)) es m in
  m <= r /\ Forall (fun e => number_key e <= r) es /\ (r = m \/ Exists (fun e => number_key e = r) es).
Proof.
  revert m. induction es as [|e es IH]; intros m; simpl; [split; [lia|split; [constructor|by left]]|].
  destruct (IH (Z.max m (number_key e))) as (Hle & Hall & Hex).
  split; [lia|]. split; [constructor; [lia|exact Hall]|].
  destruct Hex as [Heq|Hex]; [|right; by right].
  destruct (Z.le_ge_cases m (number_key e)).
  - right. left. rewrite Heq. lia.
  - left. rewrite Heq. lia.
Qed.

Lemma get_latest_number_max (es : list entry) :
  (get_latest_number es = None <-> es = []) /\
  (forall m, get_latest_number es = Some m ->
     Forall (fun e => number_key e <= m) es /\ Exists (fun e => number_key e = m) es).
Proof.
  split; [destruct es; simpl; split; congruence|].
  intros m. destruct es as [|e es]; [discriminate|]. simpl. intros [= <-].
  change (default 0 (e_number e)) with (number_key e).
  change (fun m e' => Z.max m (default 0 (e_number e'))) with (fun m e' => Z.max m (number_key e')).
  destruct (fold_latest_spec es (number_key e)) as (Hle & Hall & Hex).
  split; [constructor; [lia|exact Hall]|].
  destruct Hex as [Heq|Hex]; [left; done|right; exact Hex].
Qed.

(** The notifier after e-mails for [es] have been handed over. *)
Definition log_mails (recipient : string) (es : list entry) (n : notifier) : notifier :=
  mk_notifier (entries n) (smtp_config n) (push_service n)
    (mail_log n ++ ((fun e => (recipient, e_number e)) <$> es)).

Lemma send_each_ok smtp recipient es n :
  Forall (fun e => smtp recipient (e_number e) = None) es ->
  send_each smtp recipient es n = (log_mails recipient es n, inr tt).
Proof.
  revert n. induction es as [|e es IH]; intros n Hok; simpl.
  - unfold log_mails. simpl. rewrite app_nil_r. by destruct n.
  - apply Forall_cons in Hok as [He Hok]. unfold bind at 1, modify.
    rewrite He. rewrite IH by exact Hok. unfold log_mails, log_mail. simpl.
    by rewrite <- app_assoc.
Qed.

Lemma send_each_fail smtp recipient pre e post x n :
  Forall (fun e => smtp recipient (e_number e) = None) pre ->
  smtp recipient (e_number e) = Some x ->
  send_each smtp recipient (pre ++ e :: post) n = (log_mails recipient (pre ++ [e]) n, inl x).
Proof.
  revert n. induction pre as [|e' pre IH]; intros n Hok Hx; simpl.
  - unfold bind at 1, modify. rewrite Hx. reflexivity.
  - apply Forall_cons in Hok as [He Hok]. unfold bind at 1, modify.
    rewrite He. rewrite IH by done. unfold log_mails, log_mail. simpl.
    by rewrite <- app_assoc.
Qed.

(** With host, port, username, password and sender configured,
    [send_email_notifications] hands one e-mail per entry to
    [send_email_notification], in the order of the list. When the e-mail
    for an entry fails, the e-mails before it have already been handed
    over, none after it is attempted, and the exception propagates:
    sending is not all-or-nothing. *)
Theorem send_email_notifications_partial smtp (es : list entry) (recipient : string) (n : notifier) :
  (forall k, k ∈ required_keys -> is_Some (smtp_config n !! k)) ->
  (Forall (fun e => smtp recipient (e_number e) = None) es ->
     send_email_notifications smtp es recipient n = (log_mails recipient es n, inr tt)) /\
  (forall pre e post x, es = pre ++ e :: post ->
     Forall (fun e => smtp recipient (e_number e) = None) pre ->
     smtp recipient (e_number e) = Some x ->
     send_email_notifications smtp es recipient n = (log_mails recipient (pre ++ [e]) n, inl x)).
Proof.
  intros Hall. apply (proj2 (missing_nil_iff (smtp_config n))) in Hall.
  assert (Hs : send_email_notifications smtp es recipient n = send_each smtp recipient es n).
  { destruct es as [|e es]; [reflexivity|]. unfold send_email_notifications, bind, get. by rewrite Hall. }
  rewrite Hs. split.
  - apply send_each_ok.
  - intros pre e post x -> Hok Hx. by apply send_each_fail.
Qed.

(** An SMTP server that rejects the mail for chapter 12. *)
Definition smtp_fails_12 (_ : string) (number : option Z) : option exc :=
  if decide (number = Some 12) then Some SMTPError else None.

Definition notifier_smtp : notifier := mk_notifier [] smtp_full (mk_service [] []) [].

Definition batch_11_12_13 : list entry :=
  [mk_entry (Some 11) None; mk_entry (Some 12) None; mk_entry (Some 13) None].

Lemma send_email_notifications_partial_witness :
  send_email_notifications smtp_fails_12 batch_11_12_13 "you@example.com" notifier_smtp =
    (mk_notifier [] smtp_full (mk_service [] [])
       [("you@example.com", Some 11); ("you@example.com", Some 12)], inl SMTPError).
Proof.
  destruct (send_email_notifications_partial smtp_fails_12 batch_11_12_13 "you@example.com" notifier_smtp)
    as [_ H].
  { intros k Hk. unfold required_keys in Hk.
    repeat (apply elem_of_cons in Hk as [->|Hk]; [vm_compute; eexists; reflexivity|]).
    by apply elem_of_nil in Hk. }
  rewrite (H [mk_entry (Some 11) None] (mk_entry (Some 12) None) [mk_entry (Some 13) None] SMTPError);
    [reflexivity|reflexivity|repeat constructor|reflexivity].
Defined.

(** With web push off, [send_combined_notifications] on a non-empty batch
    returns [push_sent = 0] and an empty [chapters] list (the list is only
    filled by the push loop) while [total_chapters] is the batch size, and
    sends no push. [email_sent] is the batch size when
    [send_email_notifications] returns, and 0 when it raises, even if some
    e-mails went out before the failure. *)
Theorem send_combined_without_push smtp webpush (es : list entry) (recipient : option string)
    (n : notifier) :
  es <> [] ->
  exists n' res,
    send_combined_notifications smtp webpush es recipient false n = (n', inr res) /\
    push_sent res = 0%nat /\ chapters res = Some [] /\ total_chapters res = length es /\
    match truthy_recipient recipient with
    | None => n' = n /\ email_sent res = 0%nat
    | Some r =>
        match send_email_notifications smtp es r n with
        | (n1, inr _) => n' = n1 /\ email_sent res = length es
        | (n1, inl _) => n' = n1 /\ email_sent res = 0%nat
        end
    end.
Proof.
  intros Hne. destruct es as [|e0 es0]; [done|].
  unfold send_combined_notifications. cbv beta iota zeta.
  destruct (truthy_recipient recipient) as [r|].
  - unfold bind at 1, try_except, bind at 1, on_notifier at 1.
    destruct (send_email_notifications smtp (e0 :: es0) r n) as [n1 [x|[]]].
    + eexists _, _. split; [reflexivity|]. simpl. auto.
    + eexists _, _. split; [reflexivity|]. simpl. auto.
  - eexists _, _. split; [reflexivity|]. simpl. auto.
Qed.

Lemma send_combined_without_push_witness :
  send_combined_notifications smtp_fails_12 webpush_up batch_11_12_13 (Some "you@example.com") false
    notifier_smtp =
    (mk_notifier [] smtp_full (mk_service [] [])
       [("you@example.com", Some 11); ("you@example.com", Some 12)],
     inr (mk_results 0 0 3 (Some []))) /\
  exists n' res,
    send_combined_notifications smtp_fails_12 webpush_up batch_11_12_13 (Some "you@example.com") false
      notifier_smtp = (n', inr res) /\
    push_sent res = 0%nat /\ chapters res = Some [] /\ total_chapters res = length batch_11_12_13 /\
    match truthy_recipient (Some "you@example.com") with
    | None => n' = notifier_smtp /\ email_sent res = 0%nat
    | Some r =>
        match send_email_notifications smtp_fails_12 batch_11_12_13 r notifier_smtp with
        | (n1, inr _) => n' = n1 /\ email_sent res = length batch_11_12_13
        | (n1, inl _) => n' = n1 /\ email_sent res = 0%nat
        end
    end.
Proof.
  split; [vm_compute; reflexivity|].
  apply (send_combined_without_push smtp_fails_12 webpush_up batch_11_12_13 (Some "you@example.com")
           notifier_smtp). discriminate.
Defined.
End NotifierExtra.

(* ------------------------------------------------------------------ *)
Module JobSpec.
Import Py Scheduler Downloader Notifier Job.

Lemma job_loop_cons E smtp recipient e rest s :
  (e_number e = None -> job_loop E smtp recipient (e :: rest) s = job_loop E smtp recipient rest s) /\
  (forall k w' x, e_number e = Some k -> download_chapter E k (sc_world s) = (w', inl x) ->
     job_loop E smtp recipient (e :: rest) s =
     job_loop E smtp recipient rest (mk_sched w' (sc_notifier s) (current_latest s))) /\
  (forall k w' p, e_number e = Some k -> download_chapter E k (sc_world s) = (w', inr p) ->
     job_loop E smtp recipient (e :: rest) s =
     job_loop E smtp recipient rest
       (mk_sched w'
          (match truthy_recipient recipient with
           | Some r => fst (send_email_notifications smtp [e] r (sc_notifier s))
           | None => sc_notifier s
           end)
          (Z.max (current_latest s) k))).
Proof.
  split; [|split].
  - intros Hn. simpl. by rewrite Hn.
  - intros k w' x Hn Hd. simpl. rewrite Hn.
    unfold bind at 1, try_except, bind at 1, on_world at 1. rewrite Hd. reflexivity.
  - intros k w' p Hn Hd. cbn [job_loop]. rewrite Hn.
    unfold bind at 1, try_except, bind at 1, on_world at 1. rewrite Hd. cbv beta iota.
    unfold bind at 1, raise_latest, modify. cbv beta iota.
    destruct (truthy_recipient recipient) as [r|].
    + unfold on_notif at 1. cbn [sc_world sc_notifier current_latest].
      destruct (send_email_notifications smtp [e] r (sc_notifier s)) as [n' [y|[]]]; reflexivity.
    + reflexivity.
Qed.


Lemma job_loop_ok E smtp recipient es s :
  exists s', job_loop E smtp recipient es s = (s', inr tt) /\
    current_latest s <= current_latest s' /\
    (current_latest s' = current_latest s \/ Some (current_latest s') ∈ e_number <$> es).
Proof.
  revert s. induction es as [|e es IH]; intros s.
  - exists s. split; [reflexivity|]. split; [lia|by left].
  - destruct (job_loop_cons E smtp recipient e es s) as (Hnone & Hfail & Hok).
    destruct (e_number e) as [k|] eqn:Hn.
    + destruct (download_chapter E k (sc_world s)) as [w' [x|p]] eqn:Hd.
      * rewrite (Hfail k w' x eq_refl Hd).
        destruct (IH (mk_sched w' (sc_notifier s) (current_latest s))) as (s' & H & Hle & Hor).
        exists s'. split; [exact H|]. simpl in Hle, Hor. split; [lia|].
        destruct Hor as [Heq|Hin]; [by left|right]. simpl. rewrite elem_of_cons. by right.
      * rewrite (Hok k w' p eq_refl Hd).
        match goal with |- context [job_loop E smtp recipient es ?s1] =>
          destruct (IH s1) as (s' & H & Hle & Hor) end.
        exists s'. split; [exact H|]. simpl in Hle, Hor. split; [lia|].
        destruct Hor as [Heq|Hin].
        -- destruct (Z.le_ge_cases (current_latest s) k).
           ++ right. simpl. rewrite elem_of_cons. left. rewrite Heq, Hn. f_equal. lia.
           ++ left. lia.
        -- right. simpl. rewrite elem_of_cons. by right.
    + rewrite (Hnone eq_refl).
      destruct (IH s) as (s' & H & Hle & Hor). exists s'. split; [exact H|]. split; [lia|].
      destruct Hor as [Heq|Hin]; [by left|right]. simpl. rewrite elem_of_cons. by right.
Qed.

(** [_job] never raises. When [check_for_update] raises, nothing is
    downloaded and [current_latest] is kept. Otherwise [current_latest]
    never decreases, and ends either where it was or at the number of one
    of the new entries. *)
Theorem job_spec E fetched smtp recipient s :
  exists s', _job E fetched smtp recipient s = (s', inr tt) /\
    current_latest s <= current_latest s' /\
    (forall n1 x, check_for_update fetched (current_latest s) (sc_notifier s) = (n1, inl x) ->
       s' = mk_sched (sc_world s) n1 (current_latest s)) /\
    (forall n1 new, check_for_update fetched (current_latest s) (sc_notifier s) = (n1, inr new) ->
       current_latest s' = current_latest s \/ Some (current_latest s') ∈ e_number <$> new).
Proof.
  unfold _job, bind at 1, get. cbv beta iota.
  unfold bind at 1, try_except, bind at 1, on_notif at 1.
  destruct (check_for_update fetched (current_latest s) (sc_notifier s)) as [n1 [x|new]] eqn:Hc.
  - eexists. split; [reflexivity|]. split; [simpl; lia|]. split.
    + intros n1' x' [= -> ->]. reflexivity.
    + intros n1' new' [=].
  - unfold ret at 1. cbv beta iota.
    destruct (job_loop_ok E smtp recipient new (mk_sched (sc_world s) n1 (current_latest s)))
      as (s' & H & Hle & Hor).
    exists s'. split; [exact H|]. split; [exact Hle|]. split.
    + intros n1' x' [=].
    + intros n1' new' [= -> ->]. exact Hor.
Qed.
End JobSpec.

(* ------------------------------------------------------------------ *)
Module AppSpec.
Import Py Scheduler Downloader WebPush Notifier App.




(** [delete_chapter], [download_pdf] and [download_cbz] read the name
    [STORAGE_DIR], which [app.py] never binds: each of them fails with a
    500 on every call, and none of them touches the storage or the
    notifier. *)
Theorem storage_endpoints_always_fail (E : env) (chapter_number : Z) (s : app) :
  delete_chapter E chapter_number s = (s, inl (HTTPException 500)) /\
  download_pdf E chapter_number s = (s, inl (HTTPException 500)) /\
  download_cbz E chapter_number s = (s, inl (HTTPException 500)).
Proof. split; [|split]; reflexivity. Qed.

Lemma delete_one_fails (E : env) (n : Z) (s : app) :
  delete_one E n s = (s, inl (NameError "STORAGE_DIR")).
Proof. reflexivity. Qed.

Lemma delete_each_all_failed (E : env) (ns : list Z) (d : list Z)
    (f : list (Z * failure_reason)) (s : app) :
  delete_each E ns d f s =
    (s, inr (d, f ++ ((fun n => (n, Raised (NameError "STORAGE_DIR"))) <$> ns))).
Proof.
  revert f. induction ns as [|n ns IH]; intros f.
  - cbn [delete_each]. unfold aret. by rewrite app_nil_r.
  - cbn [delete_each]. rewrite delete_one_fails, IH. by rewrite <- app_assoc.
Qed.

(** [delete_multiple_chapters] always answers (never with an HTTP error),
    deletes nothing, and lists every requested chapter, in order and with
    repetitions, as failed with the [NameError] for [STORAGE_DIR];
    [total_requested] is the length of the request and [total_deleted]
    is 0. *)
Theorem delete_multiple_chapters_all_failed (E : env) (chapter_numbers : list Z) (s : app) :
  delete_multiple_chapters E chapter_numbers s =
    (s, inr (mk_delete_report []
               ((fun n => (n, Raised (NameError "STORAGE_DIR"))) <$> chapter_numbers)
               (length chapter_numbers) 0)).
Proof.
  unfold delete_multiple_chapters, atry, abind. rewrite delete_each_all_failed. reflexivity.
Qed.

(** [latest_available] reads the cached entries without refreshing them
    and changes nothing: with an empty cache it answers 500, otherwise
    the largest [entry.get("number", 0)] of the cache, which one of its
    entries reaches. *)
Theorem latest_available_spec (s : app) :
  (entries (a_notifier s) = [] -> latest_available s = (s, inl (HTTPException 500))) /\
  (entries (a_notifier s) <> [] ->
     exists m, latest_available s = (s, inr m) /\
       Forall (fun e => number_key e <= m) (entries (a_notifier s)) /\
       Exists (fun e => number_key e = m) (entries (a_notifier s))).
Proof.
  unfold latest_available, abind, aget. cbv beta iota.
  destruct (NotifierExtra.get_latest_number_max (entries (a_notifier s))) as [Hnone Hsome].
  split.
  - intros He. by rewrite (proj2 Hnone He).
  - intros Hne. destruct (get_latest_number (entries (a_notifier s))) as [m|] eqn:Hg.
    + exists m. split; [reflexivity|]. by apply Hsome.
    + exfalso. by apply Hne, Hnone.
Qed.





(** The push service inside the notifier replaced by [svc]. *)
Definition with_service (s : app) (svc : service) : app :=
  mk_app (a_world s)
    (mk_notifier (entries (a_notifier s)) (smtp_config (a_notifier s)) svc
       (mail_log (a_notifier s))).

(** On a push service reached from its empty start, [subscribe_to_push]
    answers 400, and changes nothing, exactly when the [keys] lack
    [p256dh] or [auth]; otherwise it answers subscribed, and appends the
    subscription only when its endpoint is not stored yet.
    [unsubscribe_from_push] removes the subscriptions with that endpoint
    and answers not_found when there was none. *)
Theorem push_endpoints_spec (s : app) (ps : push_subscription) (ep : string) :
  reachable (push_service (a_notifier s)) ->
  subscribe_to_push ps s =
    (if bool_decide ("p256dh" ∈ ps_keys ps) && bool_decide ("auth" ∈ ps_keys ps) then
       (with_service s
          (if bool_decide (Some (ps_endpoint ps) ∈ WebPushSpec.endpoints (push_service (a_notifier s)))
           then push_service (a_notifier s)
           else set_subscriptions
                  (subscriptions (push_service (a_notifier s)) ++ [subscription_dict ps])
                  (push_service (a_notifier s))),
        inr "subscribed")
     else (s, inl (HTTPException 400))) /\
  unsubscribe_from_push ep s =
    (with_service s
       (set_subscriptions
          (filter (fun x => s_endpoint x <> Some ep) (subscriptions (push_service (a_notifier s))))
          (push_service (a_notifier s))),
     inr (if bool_decide (Some ep ∈ WebPushSpec.endpoints (push_service (a_notifier s)))
          then "unsubscribed" else "not_found")).
Proof.
  intros Hr. pose proof (WebPushSpec.reachable_wf _ Hr) as Hwf. split.
  - unfold subscribe_to_push, abind, on_push, on_notifier, with_push.
    rewrite WebPushSpec.subscribe_spec by exact Hwf.
    change (WebPushSpec.valid (subscription_dict ps))
      with (bool_decide ("p256dh" ∈ ps_keys ps) && bool_decide ("auth" ∈ ps_keys ps)).
    change (s_endpoint (subscription_dict ps)) with (Some (ps_endpoint ps)).
    destruct (bool_decide ("p256dh" ∈ ps_keys ps) && bool_decide ("auth" ∈ ps_keys ps)).
    + by destruct (bool_decide (Some (ps_endpoint ps) ∈ _)).
    + destruct s as [w [es cfg svc log]]. reflexivity.
  - unfold unsubscribe_from_push, abind, on_push, on_notifier, with_push.
    rewrite WebPushSpec.unsubscribe_spec by exact Hwf. reflexivity.
Qed.

Definition app_a : app :=
  mk_app (mk_world ∅ ∅ []) (mk_notifier [] ∅ WebPushSpec.service_a []).

Lemma push_endpoints_spec_witness :
  reachable (push_service (a_notifier app_a)) /\
  subscribe_to_push (mk_push_subscription "https://push.example/a" ["auth"; "p256dh"]) app_a =
    (app_a, inr "subscribed") /\
  subscribe_to_push (mk_push_subscription "https://push.example/b" ["p256dh"]) app_a =
    (app_a, inl (HTTPException 400)) /\
  unsubscribe_from_push "https://push.example/b" app_a =
    (app_a, inr "not_found").
Proof.
  assert (Hr : reachable (push_service (a_notifier app_a)))
    by exact (reach_step _ (OpSubscribe WebPushSpec.sub_a) (reach_init [])).
  destruct (push_endpoints_spec app_a
              (mk_push_subscription "https://push.example/a" ["auth"; "p256dh"])
              "https://push.example/b" Hr) as [H1 H2].
  destruct (push_endpoints_spec app_a
              (mk_push_subscription "https://push.example/b" ["p256dh"])
              "https://push.example/b" Hr) as [H3 _].
  split; [exact Hr|]. split; [|split].
  - rewrite H1. vm_compute. reflexivity.
  - rewrite H3. vm_compute. reflexivity.
  - rewrite H2. vm_compute. reflexivity.
Defined.

End AppSpec.
